(** * The session facility of go-ipfs-exchange-interface

    A shallow embedding of [interface.go] (package [exchange]): the opaque
    [SessionID], its [String] and [IsZero] methods, the process-wide counter
    [lastSessionID], and the three functions [NewSession],
    [GetOrCreateSession] and [createSession], together with the part of Go's
    [context] package they rely on ([context.WithValue] and [ctx.Value]).

    Go contexts are immutable values linked to their parent, so they are an
    inductive type here.  The [*sessionContextValue] that [createSession]
    allocates is a pointer to a mutable struct which ends up pointing back to
    the context that holds it; it is modelled by a location in an explicit
    heap.  The counter and the heap form the [State] that every function
    threads through; reading through a pointer that is not allocated is a
    panic, so that the absence of panics is something to prove.

    The functions are first studied one call at a time.  Then calls run as
    threads that advance line by line under an arbitrary schedule, started
    by a client that may pass on any context it holds; the invariants of
    that system give the properties of the allocator and show that the
    assumptions made on single calls hold of every context a client can
    have. *)

From Stdlib Require Import NArith Lia String Ascii.
From stdpp Require Import base option list gmap.

Local Open Scope N_scope.

(** ** uint64 *)

Definition uint64_modulus : N := 2 ^ 64.

(** [uint64] addition wraps around. *)
Definition uint64_add (x y : N) : N := (x + y) mod uint64_modulus.

(** ** type SessionID struct { id uint64 } *)

Record SessionID : Type := mkSessionID { id : N }.

#[global] Instance SessionID_eq_dec : EqDecision SessionID.
Proof. solve_decision. Defined.

(** func (id SessionID) IsZero() bool { return id.id == 0 } *)
Definition IsZero (s : SessionID) : bool := N.eqb (id s) 0.

(** [fmt]'s rendering of an unsigned integer under the verb [%d]: the base-10
    loop of [fmtInteger], which fills the buffer from its end,
      for u >= 10 { i--; next := u / 10; buf[i] = byte('0' + u - next*10); u = next }
      i--; buf[i] = digits[u]
    [fuel] bounds the number of iterations; [fmt_d] gives it more than the
    number of decimal digits of [u]. *)
Definition digit_byte (d : N) : ascii := ascii_of_N (48 + d).

Fixpoint fmtInteger_loop (fuel : nat) (u : N) (buf : string) : string :=
  match fuel with
  | O => String (digit_byte u) buf
  | S fuel' =>
      if 10 <=? u then
        let next := u / 10 in
        fmtInteger_loop fuel' next (String (digit_byte (u - next * 10)) buf)
      else String (digit_byte u) buf
  end.

Definition fmt_d (u : N) : string :=
  fmtInteger_loop (N.to_nat (N.log2 u)) u EmptyString.

(** func (id SessionID) String() string { return fmt.Sprintf("session-%d", id.id) } *)
Definition String_ (s : SessionID) : string :=
  String.append "session-" (fmt_d (id s)).

(** What it means for a string to be a decimal numeral: only the characters
    '0' to '9', read positionally. *)
Definition is_digit (c : ascii) : bool :=
  let n := N_of_ascii c in (48 <=? n) && (n <=? 57).

Fixpoint all_digits (s : string) : bool :=
  match s with
  | EmptyString => true
  | String c s' => is_digit c && all_digits s'
  end.

Fixpoint decimal_value (s : string) : N :=
  match s with
  | EmptyString => 0
  | String c s' =>
      (N_of_ascii c - 48) * 10 ^ N.of_nat (String.length s') + decimal_value s'
  end.

(** No superfluous leading zero: the numeral is "0" or starts with a
    non-zero digit. *)
Definition canonical (s : string) : bool :=
  match s with
  | EmptyString => false
  | String c EmptyString => true
  | String c _ => negb (Ascii.eqb c "0")
  end.

(** ** The context package *)

(** Heap addresses of [sessionContextValue] structs. *)
Definition loc := nat.

(** Keys of [context.WithValue].  [sessionContextKey] is the unexported
    [sessionContextKey{}] of this package; [userKey k] stands for any key of
    another type or package (they never compare equal to
    [sessionContextKey{}]). *)
Inductive Key : Type :=
  | sessionContextKey
  | userKey (k : nat).

#[global] Instance Key_eq_dec : EqDecision Key.
Proof. solve_decision. Defined.

(** Dynamic values stored under a key: a [*sessionContextValue], or a value
    of any other dynamic type. *)
Inductive Any : Type :=
  | ptr_sessionContextValue (l : loc)
  | userVal (v : nat).

#[global] Instance Any_eq_dec : EqDecision Any.
Proof. solve_decision. Defined.

(** Non-nil [context.Context] values built by the [context] package:
    the two roots, a derivation that adds cancellation or a deadline
    ([WithCancel], [WithDeadline], [WithTimeout]; [n] tells derivations
    apart), and [WithValue].  A nil interface value is [None] of
    [option Context]. *)
Inductive Context : Type :=
  | Background
  | TODO
  | WithCancel (parent : Context) (n : nat)
  | WithValue (parent : Context) (key : Key) (val : Any).

#[global] Instance Context_eq_dec : EqDecision Context.
Proof. solve_decision. Defined.

(** [ctx.Value(key)]: the value of the nearest [WithValue] node with that
    key on the way to the root; [None] is the nil result. *)
Fixpoint Value (ctx : Context) (key : Key) : option Any :=
  match ctx with
  | Background | TODO => None
  | WithCancel parent _ => Value parent key
  | WithValue parent k v => if decide (key = k) then Some v else Value parent key
  end.

(** The comma-ok type assertion to [*sessionContextValue] applied to the
    result of [ctx.Value]: [Some l] when [ok], with [l] the pointer. *)
Definition assert_sessionContextValue (x : option Any) : option loc :=
  match x with
  | Some (ptr_sessionContextValue l) => Some l
  | _ => None
  end.

(** ** type sessionContextValue struct { sesID SessionID; sesCtx context.Context } *)

Record sessionContextValue : Type := mkSessionContextValue {
  sesID : SessionID;
  sesCtx : option Context
}.

(** ** Program state: the global [lastSessionID] and the heap *)

Record State : Type := mkState {
  lastSessionID : N;
  heap : gmap loc sessionContextValue
}.

(** var lastSessionID uint64, zero-initialised; nothing allocated. *)
Definition initial : State := {| lastSessionID := 0; heap := ∅ |}.

(** ** A state monad with panics *)

Inductive Result (A : Type) : Type :=
  | Ok (a : A)
  | Panic (msg : string).
Arguments Ok {A} a.
Arguments Panic {A} msg.

Definition M (A : Type) : Type := State -> Result (A * State).

Definition ret {A} (a : A) : M A := fun st => Ok (a, st).

Definition bind {A B} (m : M A) (k : A -> M B) : M B :=
  fun st =>
    match m st with
    | Ok (a, st') => k a st'
    | Panic msg => Panic msg
    end.

Notation "x <- m ;; k" := (bind m (fun x => k))
  (at level 100, m at next level, right associativity).

(** [atomic.AddUint64(&lastSessionID, delta)]: one indivisible
    read-modify-write, returning the new value. *)
Definition atomic_AddUint64_lastSessionID (delta : N) : M N :=
  fun st =>
    let v := uint64_add (lastSessionID st) delta in
    Ok (v, {| lastSessionID := v; heap := heap st |}).

(** [&sessionContextValue{...}]: a struct at a fresh address. *)
Definition new_sessionContextValue (v : sessionContextValue) : M loc :=
  fun st =>
    let l := fresh (dom (heap st)) in
    Ok (l, {| lastSessionID := lastSessionID st; heap := <[l := v]> (heap st) |}).

(** [*p]: reading through a pointer. *)
Definition load (p : loc) : M sessionContextValue :=
  fun st =>
    match heap st !! p with
    | Some v => Ok (v, st)
    | None => Panic "invalid memory address or nil pointer dereference"
    end.

(** [p.sesCtx = c]. *)
Definition store_sesCtx (p : loc) (c : option Context) : M unit :=
  fun st =>
    match heap st !! p with
    | Some v =>
        Ok (tt, {| lastSessionID := lastSessionID st;
                   heap := <[p := {| sesID := sesID v; sesCtx := c |}]> (heap st) |})
    | None => Panic "invalid memory address or nil pointer dereference"
    end.

(** ** The functions of interface.go *)

(** func createSession(ctx context.Context) (SessionID, context.Context) *)
Definition createSession (ctx : Context) : M (SessionID * Context) :=
  n <- atomic_AddUint64_lastSessionID 1;;
  let id := {| id := n |} in
  ctxValue <- new_sessionContextValue {| sesID := id; sesCtx := None |};;
  let ctx := WithValue ctx sessionContextKey (ptr_sessionContextValue ctxValue) in
  _ <- store_sesCtx ctxValue (Some ctx);;
  ret (id, ctx).

(** func NewSession(ctx context.Context) context.Context *)
Definition NewSession (ctx : Context) : M Context :=
  match assert_sessionContextValue (Value ctx sessionContextKey) with
  | Some _ => ret ctx
  | None =>
      r <- createSession ctx;;
      let '(_, ctx) := r in
      ret ctx
  end.

(** func GetOrCreateSession(ctx context.Context) (SessionID, context.Context) *)
Definition GetOrCreateSession (ctx : Context) : M (SessionID * option Context) :=
  match assert_sessionContextValue (Value ctx sessionContextKey) with
  | Some s =>
      v <- load s;;
      ret (sesID v, sesCtx v)
  | None =>
      r <- createSession ctx;;
      let '(id, ctx) := r in
      ret (id, Some ctx)
  end.


(** ** The exported functions on interface values

    A Go caller passes a [context.Context] interface value, which may be
    nil: [None] here.  A method call through a nil interface is a run-time
    panic, and [context.WithValue] panics on a nil parent.  On [Some c] the
    functions below are the ones above. *)
Module Iface.

(** [ctx.Value(key)] through the interface. *)
Definition Value (ctx : option Context) (key : Key) : M (option Any) :=
  match ctx with
  | Some c => ret (Value c key)
  | None => fun _ => Panic "invalid memory address or nil pointer dereference"
  end.

(** [context.WithValue(parent, key, val)]. *)
Definition WithValue (parent : option Context) (key : Key) (val : Any) : M Context :=
  match parent with
  | Some c => ret (WithValue c key val)
  | None => fun _ => Panic "cannot create context from nil parent"
  end.

(** func createSession(ctx context.Context) (SessionID, context.Context) *)
Definition createSession (ctx : option Context) : M (SessionID * option Context) :=
  n <- atomic_AddUint64_lastSessionID 1;;
  let id := {| id := n |} in
  ctxValue <- new_sessionContextValue {| sesID := id; sesCtx := None |};;
  ctx <- WithValue ctx sessionContextKey (ptr_sessionContextValue ctxValue);;
  _ <- store_sesCtx ctxValue (Some ctx);;
  ret (id, Some ctx).

(** func NewSession(ctx context.Context) context.Context *)
Definition NewSession (ctx : option Context) : M (option Context) :=
  v <- Value ctx sessionContextKey;;
  match assert_sessionContextValue v with
  | Some _ => ret ctx
  | None =>
      r <- createSession ctx;;
      let '(_, ctx) := r in
      ret ctx
  end.

(** func GetOrCreateSession(ctx context.Context) (SessionID, context.Context) *)
Definition GetOrCreateSession (ctx : option Context) : M (SessionID * option Context) :=
  v <- Value ctx sessionContextKey;;
  match assert_sessionContextValue v with
  | Some s =>
      v <- load s;;
      ret (sesID v, sesCtx v)
  | None => createSession ctx
  end.

End Iface.

(** ** Session bindings of a context *)

(** The pointer that the guard of [NewSession] and [GetOrCreateSession]
    finds: [ctx.Value(sessionContextKey{}).( *sessionContextValue)]. *)
Definition session_of (ctx : Context) : option loc :=
  assert_sessionContextValue (Value ctx sessionContextKey).

(** The context that holds the value [ctx.Value(sessionContextKey{})] finds:
    [ctx] itself or the nearest ancestor made by [WithValue] with the
    session key. *)
Fixpoint bindingScope (ctx : Context) : option Context :=
  match ctx with
  | Background | TODO => None
  | WithCancel parent _ => bindingScope parent
  | WithValue parent k _ =>
      if decide (sessionContextKey = k) then Some ctx else bindingScope parent
  end.

(** [derived a d]: [d] is [a] or was derived from it by code outside this
    package, that is by cancellation, deadline or a value under a foreign
    key. *)
Inductive derived (a : Context) : Context -> Prop :=
  | derived_refl : derived a a
  | derived_WithCancel d n : derived a d -> derived a (WithCancel d n)
  | derived_WithValue d k v : derived a d -> derived a (WithValue d (userKey k) v).

(** Number of session bindings along the ancestry chain of a context. *)
Fixpoint bindings (ctx : Context) : nat :=
  match ctx with
  | Background | TODO => O
  | WithCancel parent _ => bindings parent
  | WithValue parent k _ =>
      ((if decide (sessionContextKey = k) then 1 else 0) + bindings parent)%nat
  end.

(** A context is well formed in a heap when every session pointer on its
    chain is allocated and the struct it points to refers back to the very
    context node that carries the pointer. *)
Fixpoint ctx_wf (h : gmap loc sessionContextValue) (ctx : Context) : Prop :=
  match ctx with
  | Background | TODO => True
  | WithCancel parent _ => ctx_wf h parent
  | WithValue parent k v =>
      ctx_wf h parent /\
      match k, v with
      | sessionContextKey, ptr_sessionContextValue l =>
          exists i, h !! l = Some {| sesID := i; sesCtx := Some (WithValue parent k v) |}
      | _, _ => True
      end
  end.

(** The session id bound to a context, read off the heap. *)
Definition bound_id (h : gmap loc sessionContextValue) (ctx : Context) : option SessionID :=
  match session_of ctx with
  | Some l => sesID <$> h !! l
  | None => None
  end.

(** ** Concurrent callers

    Calls of [NewSession] and [GetOrCreateSession] run as threads; a thread
    advances by one shared-memory access or one local computation at a time,
    and a schedule interleaves the threads in any order.  The program points
    name the line of interface.go the thread is about to execute. *)

Inductive Func : Type := fnNewSession | fnGetOrCreateSession.

Inductive Ret : Type :=
  | retNewSession (ctx : Context)
  | retGetOrCreateSession (i : SessionID) (ctx : option Context).

Inductive PC : Type :=
  | pcEntry                                    (* lines 73, 89: the guard *)
  | pcLoadID (s : loc)                         (* line 90: s.sesID *)
  | pcLoadCtx (s : loc) (i : SessionID)        (* line 90: s.sesCtx, return *)
  | pcAdd                                      (* line 97 *)
  | pcAlloc (i : SessionID)                    (* line 100 *)
  | pcDerive (i : SessionID) (ctxValue : loc)  (* line 103 *)
  | pcStore (i : SessionID) (ctxValue : loc) (ctx : Context)  (* lines 110, 112 *)
  | pcDone (r : Ret).

Record Thread : Type := mkThread { fn : Func; arg : Context; pc : PC }.

Definition result_of (f : Func) (i : SessionID) (ctx : Context) : Ret :=
  match f with
  | fnNewSession => retNewSession ctx
  | fnGetOrCreateSession => retGetOrCreateSession i (Some ctx)
  end.

Definition step (t : Thread) : M PC :=
  match pc t with
  | pcEntry =>
      match assert_sessionContextValue (Value (arg t) sessionContextKey) with
      | Some s =>
          match fn t with
          | fnNewSession => ret (pcDone (retNewSession (arg t)))
          | fnGetOrCreateSession => ret (pcLoadID s)
          end
      | None => ret pcAdd
      end
  | pcLoadID s => v <- load s;; ret (pcLoadCtx s (sesID v))
  | pcLoadCtx s i => v <- load s;; ret (pcDone (retGetOrCreateSession i (sesCtx v)))
  | pcAdd => n <- atomic_AddUint64_lastSessionID 1;; ret (pcAlloc {| id := n |})
  | pcAlloc i =>
      ctxValue <- new_sessionContextValue {| sesID := i; sesCtx := None |};;
      ret (pcDerive i ctxValue)
  | pcDerive i ctxValue =>
      ret (pcStore i ctxValue
             (WithValue (arg t) sessionContextKey (ptr_sessionContextValue ctxValue)))
  | pcStore i ctxValue ctx =>
      _ <- store_sesCtx ctxValue (Some ctx);;
      ret (pcDone (result_of (fn t) i ctx))
  | pcDone r => ret (pcDone r)
  end.

(** One call run alone for [n] steps. *)
Fixpoint run_thread (n : nat) (t : Thread) : M PC :=
  match n with
  | O => ret (pc t)
  | S n' => p <- step t;; run_thread n' {| fn := fn t; arg := arg t; pc := p |}
  end.

(** The allocation a step performs: line 97 hands the thread its id. *)
Definition allocation (old new : PC) : option SessionID :=
  match old, new with
  | pcAdd, pcAlloc i => Some i
  | _, _ => None
  end.

(** The client: it holds the roots, whatever calls have returned, and what
    it derives from them with the [context] package. *)
Inductive CtxExpr : Type :=
  | eBackground
  | eTODO
  | eResult (i : nat)
  | eWithCancel (e : CtxExpr) (n : nat)
  | eWithValue (e : CtxExpr) (k v : nat).

Definition ret_ctx (r : Ret) : option Context :=
  match r with
  | retNewSession c => Some c
  | retGetOrCreateSession _ c => c
  end.

Definition returned_ctx (t : Thread) : option Context :=
  match pc t with
  | pcDone r => ret_ctx r
  | _ => None
  end.

Fixpoint eval (pool : list Thread) (e : CtxExpr) : option Context :=
  match e with
  | eBackground => Some Background
  | eTODO => Some TODO
  | eResult i => t ← pool !! i; returned_ctx t
  | eWithCancel e n => c ← eval pool e; Some (WithCancel c n)
  | eWithValue e k v => c ← eval pool e; Some (WithValue c (userKey k) (userVal v))
  end.

Inductive Action : Type :=
  | Call (f : Func) (e : CtxExpr)   (* start a call in a new thread *)
  | Run (i : nat).                  (* let thread [i] take its next step *)

Record Config : Type := mkConfig {
  pool : list Thread;
  trace : list (nat * SessionID)   (* who was allocated which id, in order *)
}.

(** The configuration after thread [i], which was [t], has stepped to [p]. *)
Definition after_step (cfg : Config) (i : nat) (t : Thread) (p : PC) : Config :=
  {| pool := <[i := {| fn := fn t; arg := arg t; pc := p |}]> (pool cfg);
     trace := trace cfg ++
                match allocation (pc t) p with
                | Some s => [(i, s)]
                | None => []
                end |}.

(** The configuration after a call of [f] on [c] has started. *)
Definition after_call (cfg : Config) (f : Func) (c : Context) : Config :=
  {| pool := pool cfg ++ [{| fn := f; arg := c; pc := pcEntry |}];
     trace := trace cfg |}.

Definition do_action (a : Action) (cfg : Config) : M Config :=
  match a with
  | Call f e =>
      match eval (pool cfg) e with
      | Some c => ret (after_call cfg f c)
      | None => ret cfg
      end
  | Run i =>
      match pool cfg !! i with
      | Some t => p <- step t;; ret (after_step cfg i t p)
      | None => ret cfg
      end
  end.

Fixpoint run (acts : list Action) (cfg : Config) : M Config :=
  match acts with
  | [] => ret cfg
  | a :: acts' => cfg' <- do_action a cfg;; run acts' cfg'
  end.

Definition start : Config := {| pool := []; trace := [] |}.

(** ** Invariants of the running system *)

(** The struct a thread has allocated: the one it still fills in, or the
    one behind the context it has returned after creating a session. *)
Definition created (t : Thread) : option loc :=
  match pc t with
  | pcDerive _ p | pcStore _ p _ => Some p
  | pcDone r =>
      match session_of (arg t) with
      | None => c ← ret_ctx r; session_of c
      | Some _ => None
      end
  | _ => None
  end.

(** A context holds at most one binding, and holds one exactly when the
    guard finds it. *)
Definition single_binding (ctx : Context) : Prop :=
  bindings ctx = match session_of ctx with Some _ => 1%nat | None => 0%nat end.

(** What is known of thread [i] at each program point, in heap [h] and with
    the allocations [tr] made so far. *)
Definition thread_inv (h : gmap loc sessionContextValue) (tr : list (nat * SessionID))
    (i : nat) (t : Thread) : Prop :=
  ctx_wf h (arg t) /\ single_binding (arg t) /\
  match pc t with
  | pcEntry => i ∉ tr.*1
  | pcLoadID s =>
      fn t = fnGetOrCreateSession /\ session_of (arg t) = Some s /\ i ∉ tr.*1
  | pcLoadCtx s x =>
      fn t = fnGetOrCreateSession /\ session_of (arg t) = Some s /\ (i ∉ tr.*1) /\
      exists scope, h !! s = Some {| sesID := x; sesCtx := Some scope |}
  | pcAdd => session_of (arg t) = None /\ i ∉ tr.*1
  | pcAlloc x => session_of (arg t) = None /\ (i, x) ∈ tr
  | pcDerive x p =>
      session_of (arg t) = None /\ (i, x) ∈ tr /\
      h !! p = Some {| sesID := x; sesCtx := None |}
  | pcStore x p c =>
      session_of (arg t) = None /\ (i, x) ∈ tr /\
      h !! p = Some {| sesID := x; sesCtx := None |} /\
      c = WithValue (arg t) sessionContextKey (ptr_sessionContextValue p)
  | pcDone r =>
      match session_of (arg t) with
      | Some s =>
          (i ∉ tr.*1) /\
          match fn t with
          | fnNewSession => r = retNewSession (arg t)
          | fnGetOrCreateSession =>
              exists x scope,
                h !! s = Some {| sesID := x; sesCtx := Some scope |} /\
                r = retGetOrCreateSession x (Some scope)
          end
      | None =>
          exists x p,
            let c := WithValue (arg t) sessionContextKey (ptr_sessionContextValue p) in
            (i, x) ∈ tr /\
            h !! p = Some {| sesID := x; sesCtx := Some c |} /\
            r = result_of (fn t) x c
      end
  end.

Record Inv (st : State) (cfg : Config) : Prop := mkInv {
  inv_threads : forall i t,
    pool cfg !! i = Some t -> thread_inv (heap st) (trace cfg) i t;
  inv_owner : forall i j ti tj p,
    pool cfg !! i = Some ti -> pool cfg !! j = Some tj ->
    created ti = Some p -> created tj = Some p -> i = j;
  inv_cells : forall l,
    is_Some (heap st !! l) ->
    exists i t, pool cfg !! i = Some t /\ created t = Some l;
  inv_trace_nodup : NoDup (trace cfg).*1;
  inv_trace_bound : forall i, i ∈ (trace cfg).*1 -> (i < length (pool cfg))%nat
}.

(** The counter equals the number of allocations made, and the [k]-th
    allocation (from 0) was given the id [k + 1]. *)
Definition ids_in_order (st : State) (cfg : Config) : Prop :=
  lastSessionID st = N.of_nat (length (trace cfg)) /\
  forall k i x, trace cfg !! k = Some (i, x) -> id x = N.of_nat (S k).

(** Steps a call still has to take before it has returned. *)
Definition remaining (p : PC) : nat :=
  match p with
  | pcEntry => 5
  | pcAdd => 4
  | pcAlloc _ => 3
  | pcDerive _ _ => 2
  | pcLoadID _ => 2
  | pcStore _ _ _ => 1
  | pcLoadCtx _ _ => 1
  | pcDone _ => 0
  end.

(** Three calls of [GetOrCreateSession] racing on scopes freshly derived
    from the same root without binding: two on the same scope, one on its
    sibling.  The schedule interleaves them. *)
Definition race : list Action :=
  [ Call fnGetOrCreateSession (eWithCancel eBackground 1);
    Call fnGetOrCreateSession (eWithCancel eBackground 1);
    Call fnGetOrCreateSession (eWithCancel eBackground 2);
    Run 0; Run 1; Run 2; Run 1; Run 0; Run 2; Run 0; Run 1; Run 2;
    Run 2; Run 1; Run 0; Run 0; Run 1; Run 2 ].

Definition race_end : Config * State :=
  Eval vm_compute in
    match run race start initial with
    | Ok r => r
    | Panic _ => (start, initial)
    end.

(** What a client does after the race: it passes the context the first
    call returned to [NewSession], and asks for a session on [TODO]. *)
Definition later : list Action :=
  [ Call fnNewSession (eResult 0); Run 3;
    Call fnGetOrCreateSession eTODO; Run 4; Run 4; Run 4 ].

Definition later_end : Config * State :=
  Eval vm_compute in
    match run later race_end.1 race_end.2 with
    | Ok r => r
    | Panic _ => race_end
    end.

(** The counter just before it wraps. *)
Definition last_before_wrap : State :=
  {| lastSessionID := 18446744073709551615; heap := ∅ |}.

(** ** The scenario of the specification

    A root [S0] without binding; [S1] is what the first
    [GetOrCreateSession(S0)] of a fresh process returns, [st1] the state it
    leaves; [S2] is [S1] with a deadline attached. *)
Definition S0 : Context := Background.
Definition S1 : Context :=
  WithValue S0 sessionContextKey (ptr_sessionContextValue 0%nat).
Definition st1 : State :=
  {| lastSessionID := 1;
     heap := {[ 0%nat := {| sesID := {| id := 1 |}; sesCtx := Some S1 |} ]} |}.
Definition S2 : Context := WithCancel S1 0.

(** [ancestor_or_self a c]: [a] is [c] or one of the contexts [c] was
    derived from. *)
Fixpoint ancestor_or_self (a c : Context) : bool :=
  if decide (a = c) then true
  else
    match c with
    | Background | TODO => false
    | WithCancel parent _ | WithValue parent _ _ => ancestor_or_self a parent
    end.

(** Number of derivations between a context and its root. *)
Fixpoint depth (c : Context) : nat :=
  match c with
  | Background | TODO => O
  | WithCancel parent _ | WithValue parent _ _ => S (depth parent)
  end.

(** A later heap keeps every published struct (one whose [sesCtx] is set)
    as it is. *)
Definition published_kept (h h' : gmap loc sessionContextValue) : Prop :=
  forall l v, h !! l = Some v -> sesCtx v <> None -> h' !! l = Some v.

(** * Properties *)

(** ** [String] and [IsZero] *)

Lemma N_of_digit_byte (d : N) : d < 10 -> N_of_ascii (digit_byte d) = 48 + d.
Proof.
  intros H. unfold digit_byte. apply N_ascii_embedding. lia.
Qed.

Lemma is_digit_digit_byte (d : N) : d < 10 -> is_digit (digit_byte d) = true.
Proof.
  intros H. unfold is_digit. rewrite (N_of_digit_byte _ H).
  apply andb_true_intro. split; apply N.leb_le; lia.
Qed.

Lemma digit_byte_nonzero (d : N) :
  0 < d -> d < 10 -> Ascii.eqb (digit_byte d) "0" = false.
Proof.
  intros H0 H. apply Ascii.eqb_neq. intros E.
  apply (f_equal N_of_ascii) in E. rewrite (N_of_digit_byte _ H) in E.
  simpl in E. lia.
Qed.

Lemma div10_bounds (u : N) : let next := u / 10 in next * 10 <= u /\ u - next * 10 < 10.
Proof.
  cbv zeta.
  assert (u = 10 * (u / 10) + u mod 10) as Hdm by (apply N.div_mod; discriminate).
  assert (u mod 10 < 10) as Hlt by (apply N.mod_lt; discriminate).
  revert Hdm Hlt. generalize (u / 10) (u mod 10). intros q r Hdm Hlt. lia.
Qed.

Lemma fmtInteger_loop_all_digits (fuel : nat) : forall u buf,
  u < 10 * 10 ^ N.of_nat fuel ->
  all_digits buf = true ->
  all_digits (fmtInteger_loop fuel u buf) = true.
Proof.
  induction fuel as [|fuel IH]; intros u buf Hu Hbuf.
  - simpl in *. rewrite is_digit_digit_byte by lia. assumption.
  - cbn [fmtInteger_loop]. destruct (N.leb_spec 10 u) as [Hge|Hlt].
    + pose proof (div10_bounds u) as [Hle Hlt]. apply IH.
      * rewrite Nat2N.inj_succ, N.pow_succ_r' in Hu.
        apply N.Div0.div_lt_upper_bound. lia.
      * simpl. now rewrite is_digit_digit_byte.
    + simpl. now rewrite is_digit_digit_byte.
Qed.

Lemma fmtInteger_loop_value (fuel : nat) : forall u buf,
  u < 10 * 10 ^ N.of_nat fuel ->
  decimal_value (fmtInteger_loop fuel u buf) =
    u * 10 ^ N.of_nat (String.length buf) + decimal_value buf.
Proof.
  induction fuel as [|fuel IH]; intros u buf Hu.
  - simpl in *. rewrite N_of_digit_byte by lia. f_equal. f_equal. lia.
  - cbn [fmtInteger_loop]. destruct (N.leb_spec 10 u) as [Hge|Hlt].
    + pose proof (div10_bounds u) as [Hle Hlt]. rewrite IH.
      * cbn [decimal_value String.length]. rewrite N_of_digit_byte by assumption.
        rewrite Nat2N.inj_succ, N.pow_succ_r'. nia.
      * rewrite Nat2N.inj_succ, N.pow_succ_r' in Hu.
        apply N.Div0.div_lt_upper_bound. lia.
    + cbn [decimal_value]. rewrite N_of_digit_byte by assumption. f_equal. f_equal. lia.
Qed.

Lemma fmtInteger_loop_canonical (fuel : nat) : forall u buf,
  u < 10 * 10 ^ N.of_nat fuel ->
  0 < u \/ buf = EmptyString ->
  canonical (fmtInteger_loop fuel u buf) = true.
Proof.
  assert (forall u buf, u < 10 -> 0 < u \/ buf = EmptyString ->
            canonical (String (digit_byte u) buf) = true) as Hbase.
  { intros u buf Hu [Hpos| ->]; [|reflexivity].
    destruct buf; [reflexivity|]. simpl. now rewrite digit_byte_nonzero. }
  induction fuel as [|fuel IH]; intros u buf Hu Hor.
  - simpl in *. apply Hbase; [lia | assumption].
  - cbn [fmtInteger_loop]. destruct (N.leb_spec 10 u) as [Hge|Hlt].
    + apply IH.
      * rewrite Nat2N.inj_succ, N.pow_succ_r' in Hu.
        apply N.Div0.div_lt_upper_bound. lia.
      * left. apply N.div_str_pos. lia.
    + now apply Hbase.
Qed.

(** The fuel [fmt_d] passes covers every digit of [u]. *)
Lemma fmt_d_fuel (u : N) : u < 10 * 10 ^ N.of_nat (N.to_nat (N.log2 u)).
Proof.
  rewrite N2Nat.id.
  assert (u < 2 * 2 ^ N.log2 u) as H2.
  { destruct (N.eq_dec u 0) as [->|Hne]; [simpl; lia|].
    rewrite <- N.pow_succ_r'. apply N.log2_spec. lia. }
  assert (2 ^ N.log2 u <= 10 ^ N.log2 u) as Hpow.
  { apply N.pow_le_mono_l. lia. }
  lia.
Qed.

(** [fmt_d u] is the decimal numeral of [u]. *)
Lemma fmt_d_decimal (u : N) :
  all_digits (fmt_d u) = true /\
  canonical (fmt_d u) = true /\
  decimal_value (fmt_d u) = u.
Proof.
  pose proof (fmt_d_fuel u) as Hf. unfold fmt_d. repeat split.
  - now apply fmtInteger_loop_all_digits.
  - apply fmtInteger_loop_canonical; auto.
  - rewrite fmtInteger_loop_value by assumption. simpl. lia.
Qed.

Lemma append_inj_l (p a b : string) :
  String.append p a = String.append p b -> a = b.
Proof. induction p as [|c p IH]; simpl; [auto | intros [= E]; auto]. Qed.

(** C8.  [String] renders an id as the text session- followed by the decimal
    numeral of the underlying value: digits only, no leading zero, and read
    positionally they give the value back.  Equal ids render equally and
    different ids differently; the id with value 7 renders as session-7. *)
Theorem String_renders_decimal :
  forall s : SessionID,
    exists digits : string,
      String_ s = String.append "session-" digits /\
      all_digits digits = true /\
      canonical digits = true /\
      decimal_value digits = id s /\
      (forall s', String_ s' = String_ s <-> s' = s) /\
      String_ {| id := 7 |} = "session-7"%string.
Proof.
  intros s. exists (fmt_d (id s)).
  destruct (fmt_d_decimal (id s)) as (Hd & Hc & Hv).
  repeat split; auto.
  - unfold String_. intros E. apply append_inj_l in E.
    destruct (fmt_d_decimal (id s')) as (_ & _ & Hv').
    assert (id s' = id s) as Hid by congruence.
    destruct s, s'. simpl in Hid. now subst.
  - now intros ->.
Qed.

(** C9.  [String] does not look at validity: the zero id, for which
    [IsZero] holds, renders as session-0, a text of the same form
    (session- and a decimal numeral) as that of every valid id. *)
Theorem String_renders_zero_id :
  IsZero {| id := 0 |} = true /\
  String_ {| id := 0 |} = "session-0"%string /\
  forall s : SessionID,
    exists digits : string,
      String_ s = String.append "session-" digits /\
      all_digits digits = true /\
      canonical digits = true.
Proof.
  split; [reflexivity|]. split; [reflexivity|].
  intros s. exists (fmt_d (id s)).
  destruct (fmt_d_decimal (id s)) as (Hd & Hc & _). auto.
Qed.

Lemma IsZero_spec (s : SessionID) : IsZero s = true <-> id s = 0.
Proof. unfold IsZero. apply N.eqb_eq. Qed.

Lemma IsZero_false (s : SessionID) : IsZero s = false <-> id s <> 0.
Proof. unfold IsZero. apply N.eqb_neq. Qed.

(** ** The primitives and [createSession] *)

Lemma uint64_add_1_nowrap (n : N) :
  n + 1 < uint64_modulus -> uint64_add n 1 = n + 1.
Proof. intros H. unfold uint64_add. now apply N.mod_small. Qed.

Lemma uint64_add_1_wrap : uint64_add (uint64_modulus - 1) 1 = 0.
Proof. reflexivity. Qed.

Lemma fresh_loc_None (h : gmap loc sessionContextValue) :
  h !! fresh (dom h) = None.
Proof. apply not_elem_of_dom, is_fresh. Qed.

(** What a call of [createSession] computes, in closed form. *)
Lemma createSession_eq (ctx : Context) (st : State) :
  let n := uint64_add (lastSessionID st) 1 in
  let l := fresh (dom (heap st)) in
  let ctx' := WithValue ctx sessionContextKey (ptr_sessionContextValue l) in
  createSession ctx st =
    Ok (({| id := n |}, ctx'),
        {| lastSessionID := n;
           heap := <[l := {| sesID := {| id := n |}; sesCtx := Some ctx' |}]> (heap st) |}).
Proof.
  unfold createSession, bind, atomic_AddUint64_lastSessionID,
    new_sessionContextValue, store_sesCtx, ret; simpl.
  rewrite lookup_insert_eq; simpl.
  now rewrite insert_insert_eq.
Qed.

Lemma NewSession_unbound (ctx : Context) (st : State) :
  session_of ctx = None ->
  NewSession ctx st =
    match createSession ctx st with
    | Ok ((_, c), st') => Ok (c, st')
    | Panic m => Panic m
    end.
Proof.
  unfold NewSession, session_of. intros ->. unfold bind.
  destruct (createSession ctx st) as [[[i c] st']|m]; reflexivity.
Qed.

Lemma NewSession_bound (ctx : Context) (st : State) (l : loc) :
  session_of ctx = Some l -> NewSession ctx st = Ok (ctx, st).
Proof. unfold NewSession, session_of. now intros ->. Qed.

Lemma GetOrCreateSession_unbound (ctx : Context) (st : State) :
  session_of ctx = None ->
  GetOrCreateSession ctx st =
    match createSession ctx st with
    | Ok ((i, c), st') => Ok ((i, Some c), st')
    | Panic m => Panic m
    end.
Proof.
  unfold GetOrCreateSession, session_of. intros ->. unfold bind.
  destruct (createSession ctx st) as [[[i c] st']|m]; reflexivity.
Qed.

Lemma GetOrCreateSession_bound (ctx : Context) (st : State) (l : loc) :
  session_of ctx = Some l ->
  GetOrCreateSession ctx st =
    match heap st !! l with
    | Some v => Ok ((sesID v, sesCtx v), st)
    | None => Panic "invalid memory address or nil pointer dereference"
    end.
Proof.
  unfold GetOrCreateSession, session_of. intros ->. unfold bind, load.
  now destruct (heap st !! l).
Qed.

(** ** Contexts and their bindings *)

Lemma session_of_WithValue_self (ctx : Context) (l : loc) :
  session_of (WithValue ctx sessionContextKey (ptr_sessionContextValue l)) = Some l.
Proof. reflexivity. Qed.

Lemma derived_session_of (a d : Context) :
  derived a d -> session_of d = session_of a.
Proof. induction 1; auto. Qed.

Lemma derived_bindingScope (a d : Context) :
  derived a d -> bindingScope d = bindingScope a.
Proof. induction 1; auto. Qed.

Lemma derived_bindings (a d : Context) :
  derived a d -> bindings d = bindings a.
Proof. induction 1; auto. Qed.

Lemma derived_ctx_wf h (a d : Context) :
  derived a d -> ctx_wf h a -> ctx_wf h d.
Proof. induction 1; simpl; auto. Qed.

Lemma ctx_wf_kept h h' (ctx : Context) :
  published_kept h h' -> ctx_wf h ctx -> ctx_wf h' ctx.
Proof.
  intros Hk. induction ctx as [| |p IH n|p IH k v]; simpl; auto.
  intros [Hp Hv]. split; [auto|].
  destruct k; [|exact I]. destruct v; [|exact I].
  destruct Hv as [i Hi]. exists i. now apply (Hk _ _ Hi).
Qed.

Lemma published_kept_refl h : published_kept h h.
Proof. now intros l v H _. Qed.

Lemma published_kept_trans h1 h2 h3 :
  published_kept h1 h2 -> published_kept h2 h3 -> published_kept h1 h3.
Proof. intros H12 H23 l v H Hv. apply H23; auto. Qed.

Lemma published_kept_subseteq h h' : h ⊆ h' -> published_kept h h'.
Proof. intros Hsub l v H _. eapply lookup_weaken; eauto. Qed.

(** The guard finds a pointer exactly when the chain has a binding scope
    holding it, and in a well-formed context the struct behind the pointer
    refers back to that scope. *)
Lemma session_of_binding h (ctx : Context) (l : loc) :
  ctx_wf h ctx -> session_of ctx = Some l ->
  exists i parent,
    let scope := WithValue parent sessionContextKey (ptr_sessionContextValue l) in
    bindingScope ctx = Some scope /\
    h !! l = Some {| sesID := i; sesCtx := Some scope |}.
Proof.
  unfold session_of.
  induction ctx as [| |p IH n|p IH k v]; simpl; try discriminate; auto.
  intros [Hp Hv]. destruct k as [|k]; simpl.
  - destruct v as [l'|v]; simpl; [|discriminate].
    intros [= ->]. destruct Hv as [i Hi]. now exists i, p.
  - auto.
Qed.

Lemma createSession_heap_subseteq ctx st r st' :
  createSession ctx st = Ok (r, st') -> heap st ⊆ heap st'.
Proof.
  rewrite createSession_eq. intros [= _ <-]. simpl.
  apply insert_subseteq, fresh_loc_None.
Qed.

Lemma NewSession_heap_subseteq ctx st r st' :
  NewSession ctx st = Ok (r, st') -> heap st ⊆ heap st'.
Proof.
  destruct (session_of ctx) as [l|] eqn:E.
  - rewrite (NewSession_bound _ _ _ E). now intros [= _ <-].
  - rewrite (NewSession_unbound _ _ E), createSession_eq. intros [= _ <-]. simpl.
    apply insert_subseteq, fresh_loc_None.
Qed.

Lemma GetOrCreateSession_heap_subseteq ctx st r st' :
  GetOrCreateSession ctx st = Ok (r, st') -> heap st ⊆ heap st'.
Proof.
  destruct (session_of ctx) as [l|] eqn:E.
  - rewrite (GetOrCreateSession_bound _ _ _ E).
    destruct (heap st !! l); [|discriminate]. now intros [= _ <-].
  - rewrite (GetOrCreateSession_unbound _ _ E), createSession_eq. intros [= _ <-]. simpl.
    apply insert_subseteq, fresh_loc_None.
Qed.

(** Both functions keep every published struct, so the state after any
    sequence of calls is a later state in the sense of [published_kept]. *)
Lemma registry_keeps_published ctx st :
  (forall r st', NewSession ctx st = Ok (r, st') ->
     published_kept (heap st) (heap st')) /\
  (forall r st', GetOrCreateSession ctx st = Ok (r, st') ->
     published_kept (heap st) (heap st')).
Proof.
  split; intros r st' H; apply published_kept_subseteq.
  - eapply NewSession_heap_subseteq; eauto.
  - eapply GetOrCreateSession_heap_subseteq; eauto.
Qed.

(** ** The registry, one call at a time *)

Example scenario_first_call :
  GetOrCreateSession S0 initial = Ok (({| id := 1 |}, Some S1), st1).
Proof. vm_compute. reflexivity. Qed.

Example scenario_second_call :
  GetOrCreateSession S1 st1 = Ok (({| id := 1 |}, Some S1), st1).
Proof. vm_compute. reflexivity. Qed.

Example scenario_third_call :
  GetOrCreateSession S2 st1 = Ok (({| id := 1 |}, Some S1), st1) /\ S2 <> S1.
Proof. split; [vm_compute; reflexivity | discriminate]. Qed.

(** C1.  On a context that carries a session binding, itself or through an
    ancestor, [GetOrCreateSession] returns the id stored in the binding
    together with the binding scope, the context that [createSession]
    produced when the session was created, and not the context passed in; the
    state is left alone.  On any context, whatever the first call returns,
    (id, S1), is returned again, exactly, by every later call on S1 or on a
    context S2 derived from S1. *)
Theorem GetOrCreateSession_returns_binding_scope (st : State) (ctx : Context) :
  ctx_wf (heap st) ctx ->
  exists i scope st1,
    GetOrCreateSession ctx st = Ok ((i, Some scope), st1) /\
    bindingScope scope = Some scope /\
    bound_id (heap st1) scope = Some i /\
    (forall l, session_of ctx = Some l ->
       st1 = st /\
       bindingScope ctx = Some scope /\
       heap st !! l = Some {| sesID := i; sesCtx := Some scope |}) /\
    (forall st' ctx',
       published_kept (heap st1) (heap st') ->
       derived scope ctx' ->
       GetOrCreateSession ctx' st' = Ok ((i, Some scope), st')).
Proof.
  intros Hwf.
  assert (forall i scope l (h : gmap loc sessionContextValue),
            session_of scope = Some l ->
            h !! l = Some {| sesID := i; sesCtx := Some scope |} ->
            forall st' ctx',
              published_kept h (heap st') -> derived scope ctx' ->
              GetOrCreateSession ctx' st' = Ok ((i, Some scope), st')) as Hlater.
  { intros i scope l h Hs Hh st' ctx' Hk Hd.
    assert (session_of ctx' = Some l) as Hs'.
    { now rewrite (derived_session_of _ _ Hd). }
    rewrite (GetOrCreateSession_bound _ _ _ Hs').
    rewrite (Hk _ _ Hh); [reflexivity | discriminate]. }
  destruct (session_of ctx) as [l|] eqn:Hs.
  - destruct (session_of_binding _ _ _ Hwf Hs) as (i & parent & Hb & Hh).
    cbv zeta in *.
    exists i, (WithValue parent sessionContextKey (ptr_sessionContextValue l)), st.
    rewrite (GetOrCreateSession_bound _ _ _ Hs), Hh.
    split; [reflexivity|]. split; [reflexivity|].
    split; [unfold bound_id; rewrite session_of_WithValue_self, Hh; reflexivity|].
    split; [intros l' [= <-]; auto|].
    now apply (Hlater i _ l).
  - rewrite (GetOrCreateSession_unbound _ _ Hs), createSession_eq. cbv zeta.
    eexists _, _, _. split; [reflexivity|]. simpl.
    split; [reflexivity|].
    split; [unfold bound_id; rewrite session_of_WithValue_self, lookup_insert_eq;
            reflexivity|].
    split; [intros l' [=]|].
    apply (Hlater _ _ (fresh (dom (heap st)))); [reflexivity|].
    apply lookup_insert_eq.
Qed.

Lemma GetOrCreateSession_returns_binding_scope_witness :
  exists i scope st',
    GetOrCreateSession S2 st1 = Ok ((i, Some scope), st') /\
    bindingScope scope = Some scope /\
    bound_id (heap st') scope = Some i /\
    (forall l, session_of S2 = Some l ->
       st' = st1 /\
       bindingScope S2 = Some scope /\
       heap st1 !! l = Some {| sesID := i; sesCtx := Some scope |}) /\
    (forall st'' ctx',
       published_kept (heap st') (heap st'') ->
       derived scope ctx' ->
       GetOrCreateSession ctx' st'' = Ok ((i, Some scope), st'')).
Proof.
  apply (GetOrCreateSession_returns_binding_scope st1 S2).
  simpl. split; [exact I|]. exists {| id := 1 |}. reflexivity.
Defined.

(** C2, as the code has it.  [NewSession] is idempotent on what it
    returns.  On a context that already carries a binding it returns the
    context and the state unchanged.  On any context it yields a context
    [c1] with a bound id, after exactly one increment of the counter when
    there was no binding and none otherwise.  A second call further along
    that ancestry, on [c1] or on anything derived from it, returns its
    argument, changes nothing (so it does not allocate), and the bound id
    stays the same: the chain holds one binding, from one allocation. *)
Theorem NewSession_idempotent (st : State) (ctx : Context) :
  ctx_wf (heap st) ctx ->
  single_binding ctx ->
  exists c1 st1,
    NewSession ctx st = Ok (c1, st1) /\
    (is_Some (session_of ctx) -> c1 = ctx /\ st1 = st) /\
    (session_of ctx = None ->
       lastSessionID st1 = uint64_add (lastSessionID st) 1 /\
       bindings c1 = S (bindings ctx)) /\
    is_Some (bound_id (heap st1) c1) /\
    bindings c1 = 1%nat /\
    forall d, derived c1 d ->
      NewSession d st1 = Ok (d, st1) /\
      bound_id (heap st1) d = bound_id (heap st1) c1 /\
      bindings d = 1%nat.
Proof.
  intros Hwf Hsb. unfold single_binding in Hsb.
  assert (forall c h d, derived c d -> bound_id h d = bound_id h c) as Hbid.
  { intros c h d Hd. unfold bound_id. now rewrite (derived_session_of _ _ Hd). }
  destruct (session_of ctx) as [l|] eqn:Hs.
  - exists ctx, st. rewrite (NewSession_bound _ _ _ Hs).
    split; [reflexivity|]. split; [auto|]. split; [discriminate|].
    split.
    { destruct (session_of_binding _ _ _ Hwf Hs) as (i & parent & _ & Hh).
      unfold bound_id. rewrite Hs, Hh. simpl. eauto. }
    split; [assumption|].
    intros d Hd. split; [|split].
    + apply (NewSession_bound _ _ l). now rewrite (derived_session_of _ _ Hd).
    + now apply Hbid.
    + now rewrite (derived_bindings _ _ Hd).
  - rewrite (NewSession_unbound _ _ Hs), createSession_eq. cbv zeta.
    eexists _, _. split; [reflexivity|].
    split; [intros [? [=]]|]. split; [intros _; split; reflexivity|].
    split.
    { unfold bound_id. rewrite session_of_WithValue_self. simpl.
      rewrite lookup_insert_eq. simpl. eauto. }
    split; [simpl; now rewrite Hsb|].
    intros d Hd. split; [|split].
    + apply (NewSession_bound _ _ (fresh (dom (heap st)))).
      now rewrite (derived_session_of _ _ Hd).
    + now apply Hbid.
    + rewrite (derived_bindings _ _ Hd). simpl. now rewrite Hsb.
Qed.

Lemma NewSession_idempotent_witness :
  exists c1 st',
    NewSession S0 initial = Ok (c1, st') /\
    (is_Some (session_of S0) -> c1 = S0 /\ st' = initial) /\
    (session_of S0 = None ->
       lastSessionID st' = uint64_add (lastSessionID initial) 1 /\
       bindings c1 = S (bindings S0)) /\
    is_Some (bound_id (heap st') c1) /\
    bindings c1 = 1%nat /\
    forall d, derived c1 d ->
      NewSession d st' = Ok (d, st') /\
      bound_id (heap st') d = bound_id (heap st') c1 /\
      bindings d = 1%nat.
Proof. apply (NewSession_idempotent initial S0); [exact I | reflexivity]. Defined.

(** C2 as stated fails when the second call is made on the same context
    without binding rather than on the context the first call returned: in
    a fresh process [NewSession(S0)] called twice allocates twice and yields
    contexts bound to the ids 1 and 2. *)
Lemma NewSession_twice_on_unbound_context :
  let c1 := WithValue S0 sessionContextKey (ptr_sessionContextValue 0%nat) in
  let c2 := WithValue S0 sessionContextKey (ptr_sessionContextValue 1%nat) in
  let st2 :=
    {| lastSessionID := 2;
       heap := {[ 0%nat := {| sesID := {| id := 1 |}; sesCtx := Some c1 |};
                  1%nat := {| sesID := {| id := 2 |}; sesCtx := Some c2 |} ]} |} in
  NewSession S0 initial = Ok (c1, st1) /\
  NewSession S0 st1 = Ok (c2, st2) /\
  bound_id (heap st2) c1 = Some {| id := 1 |} /\
  bound_id (heap st2) c2 = Some {| id := 2 |} /\
  lastSessionID st2 = lastSessionID initial + 2.
Proof. cbv zeta. repeat split; vm_compute; reflexivity. Qed.

(** C3.  When a fresh session is created, [NewSession] and
    [GetOrCreateSession] return the context derived from the argument by
    attaching the new binding, and the binding's back-reference [sesCtx] is
    that returned context itself: looking the session up through the
    returned context gives the returned context as its owning scope. *)
Theorem createSession_self_reference (st : State) (ctx : Context) :
  session_of ctx = None ->
  exists i c' l st',
    createSession ctx st = Ok ((i, c'), st') /\
    NewSession ctx st = Ok (c', st') /\
    GetOrCreateSession ctx st = Ok ((i, Some c'), st') /\
    c' = WithValue ctx sessionContextKey (ptr_sessionContextValue l) /\
    Value c' sessionContextKey = Some (ptr_sessionContextValue l) /\
    heap st' !! l = Some {| sesID := i; sesCtx := Some c' |} /\
    bindingScope c' = Some c' /\
    GetOrCreateSession c' st' = Ok ((i, Some c'), st').
Proof.
  intros Hs.
  rewrite (NewSession_unbound _ _ Hs), (GetOrCreateSession_unbound _ _ Hs).
  rewrite createSession_eq. cbv zeta.
  eexists _, _, _, _. split; [reflexivity|].
  repeat split.
  - simpl. now rewrite lookup_insert_eq.
  - erewrite GetOrCreateSession_bound by apply session_of_WithValue_self.
    simpl. now rewrite lookup_insert_eq.
Qed.

Lemma createSession_self_reference_witness :
  exists i c' l st',
    createSession S0 initial = Ok ((i, c'), st') /\
    NewSession S0 initial = Ok (c', st') /\
    GetOrCreateSession S0 initial = Ok ((i, Some c'), st') /\
    c' = WithValue S0 sessionContextKey (ptr_sessionContextValue l) /\
    Value c' sessionContextKey = Some (ptr_sessionContextValue l) /\
    heap st' !! l = Some {| sesID := i; sesCtx := Some c' |} /\
    bindingScope c' = Some c' /\
    GetOrCreateSession c' st' = Ok ((i, Some c'), st').
Proof. apply (createSession_self_reference initial S0). reflexivity. Defined.

Lemma WithValue_neq (ctx : Context) (k : Key) (v : Any) : WithValue ctx k v <> ctx.
Proof.
  induction ctx as [| |p IH n|p IH k' v']; try discriminate.
  intros [= H <- <-]. exact (IH H).
Qed.

(** C10.  The registry does not modify what it is given.  Every struct in
    the heap before a call is the same after it.  When a session is created
    the binding goes to a new struct, at an address unused before, attached
    to a new child of the argument; the argument itself still has no binding,
    so a later call on it does not find the session just created and makes
    another one. *)
Theorem registry_leaves_input_alone (st : State) (ctx : Context) :
  ctx_wf (heap st) ctx ->
  exists c1 st1 i c2 st2,
    NewSession ctx st = Ok (c1, st1) /\
    GetOrCreateSession ctx st = Ok ((i, c2), st2) /\
    heap st ⊆ heap st1 /\ heap st ⊆ heap st2 /\
    (is_Some (session_of ctx) -> st1 = st /\ st2 = st) /\
    (session_of ctx = None ->
       exists l,
         heap st !! l = None /\
         c1 = WithValue ctx sessionContextKey (ptr_sessionContextValue l) /\
         c2 = Some c1 /\ st2 = st1 /\ c1 <> ctx /\
         Value c1 sessionContextKey = Some (ptr_sessionContextValue l) /\
         Value ctx sessionContextKey <> Some (ptr_sessionContextValue l) /\
         exists i' c3 st3,
           GetOrCreateSession ctx st1 = Ok ((i', Some c3), st3) /\
           c3 <> c1 /\ session_of c3 <> session_of c1).
Proof.
  intros Hwf. destruct (session_of ctx) as [l|] eqn:Hs.
  - destruct (session_of_binding _ _ _ Hwf Hs) as (i & parent & _ & Hh).
    rewrite (NewSession_bound _ _ _ Hs), (GetOrCreateSession_bound _ _ _ Hs), Hh.
    eexists _, _, _, _, _. split; [reflexivity|]. split; [reflexivity|].
    repeat split; auto. discriminate.
  - rewrite (NewSession_unbound _ _ Hs), (GetOrCreateSession_unbound _ _ Hs).
    rewrite createSession_eq. cbv zeta.
    pose proof (fresh_loc_None (heap st)) as Hfresh.
    eexists _, _, _, _, _. split; [reflexivity|]. split; [reflexivity|].
    split; [now apply insert_subseteq|]. split; [now apply insert_subseteq|].
    split; [intros [? [=]]|]. intros _.
    exists (fresh (dom (heap st))).
    split; [assumption|]. split; [reflexivity|]. split; [reflexivity|].
    split; [reflexivity|]. split; [apply WithValue_neq|].
    split; [reflexivity|]. split.
    { unfold session_of in Hs. intros E. rewrite E in Hs. discriminate. }
    rewrite (GetOrCreateSession_unbound _ _ Hs), createSession_eq. cbv zeta.
    eexists _, _, _. split; [reflexivity|]. simpl.
    set (l := fresh (dom (heap st))).
    set (h' := <[l:=_]> (heap st)).
    assert (fresh (dom h') <> l) as Hne.
    { intros E. pose proof (fresh_loc_None h') as Hn. rewrite E in Hn.
      unfold h' in Hn. rewrite lookup_insert_eq in Hn. discriminate. }
    split; [intros [= E]; auto | intros [= E]; auto].
Qed.

Lemma registry_leaves_input_alone_witness :
  exists c1 st' i c2 st2,
    NewSession S0 initial = Ok (c1, st') /\
    GetOrCreateSession S0 initial = Ok ((i, c2), st2) /\
    heap initial ⊆ heap st' /\ heap initial ⊆ heap st2 /\
    (is_Some (session_of S0) -> st' = initial /\ st2 = initial) /\
    (session_of S0 = None ->
       exists l,
         heap initial !! l = None /\
         c1 = WithValue S0 sessionContextKey (ptr_sessionContextValue l) /\
         c2 = Some c1 /\ st2 = st' /\ c1 <> S0 /\
         Value c1 sessionContextKey = Some (ptr_sessionContextValue l) /\
         Value S0 sessionContextKey <> Some (ptr_sessionContextValue l) /\
         exists i' c3 st3,
           GetOrCreateSession S0 st' = Ok ((i', Some c3), st3) /\
           c3 <> c1 /\ session_of c3 <> session_of c1).
Proof. apply (registry_leaves_input_alone initial S0). exact I. Defined.

(** ** The running system: invariants *)

Local Close Scope N_scope.

Lemma bindingScope_props h (ctx scope : Context) :
  bindingScope ctx = Some scope ->
  session_of scope = session_of ctx /\
  bindings scope = bindings ctx /\
  (ctx_wf h ctx -> ctx_wf h scope).
Proof.
  unfold session_of.
  induction ctx as [| |p IH n|p IH k v]; simpl; try discriminate; auto.
  destruct k as [|k]; simpl.
  - intros [= <-]. simpl. auto.
  - intros H. destruct (IH H) as (? & ? & ?). repeat split; auto.
    intros [? _]. auto.
Qed.

Lemma created_allocated h tr i t p :
  thread_inv h tr i t -> created t = Some p -> is_Some (h !! p).
Proof.
  unfold thread_inv, created. intros (_ & _ & Hpc).
  destruct (pc t) as [|s|s x| |x|x q|x q c|r]; try discriminate.
  - intros [= ->]. destruct Hpc as (_ & _ & ->). eauto.
  - intros [= ->]. destruct Hpc as (_ & _ & -> & _). eauto.
  - destruct (session_of (arg t)); [discriminate|].
    destruct Hpc as (x & q & _ & Hq & ->).
    destruct (fn t); simpl; intros [= <-]; eauto.
Qed.

Lemma thread_inv_frame h h' tr tr' j t :
  thread_inv h tr j t ->
  published_kept h h' ->
  (forall p, created t = Some p -> h' !! p = h !! p) ->
  (forall y, (j, y) ∈ tr -> (j, y) ∈ tr') ->
  (j ∈ tr'.*1 -> j ∈ tr.*1) ->
  thread_inv h' tr' j t.
Proof.
  unfold thread_inv, created. intros (Hwf & Hsb & Hpc) Hk Hown Htr Hnot.
  split; [eapply ctx_wf_kept; eauto|]. split; [assumption|].
  destruct (pc t) as [|s|s x| |x|x q|x q c|r]; try solve [intuition auto].
  - destruct Hpc as (? & ? & ? & scope & Hs). repeat split; auto.
    exists scope. apply (Hk _ _ Hs). discriminate.
  - destruct Hpc as (? & ? & Hq). repeat split; auto.
    rewrite (Hown q eq_refl). assumption.
  - destruct Hpc as (? & ? & Hq & ?). repeat split; auto.
    rewrite (Hown q eq_refl). assumption.
  - destruct (session_of (arg t)) as [s|].
    + destruct Hpc as (? & Hfn). split; [auto|].
      destruct (fn t); [assumption|].
      destruct Hfn as (x & scope & Hs & ->). exists x, scope. split; [|reflexivity].
      apply (Hk _ _ Hs). discriminate.
    + destruct Hpc as (x & q & ? & Hq & ->). exists x, q.
      split; [auto|]. split; [|reflexivity].
      apply (Hk _ _ Hq). discriminate.
Qed.

(** Whatever the client can name is well formed and holds at most one
    binding. *)
Lemma eval_wf st cfg e c :
  Inv st cfg -> eval (pool cfg) e = Some c ->
  ctx_wf (heap st) c /\ single_binding c.
Proof.
  intros HI. revert c.
  induction e as [| |i|e IH n|e IH k v]; simpl; intros c.
  - intros [= <-]. split; [exact I | reflexivity].
  - intros [= <-]. split; [exact I | reflexivity].
  - destruct (pool cfg !! i) as [t|] eqn:Ht; simpl; [|discriminate].
    pose proof (inv_threads _ _ HI _ _ Ht) as (Hwf & Hsb & Hpc).
    unfold returned_ctx. destruct (pc t) as [|s|s x| |x|x q|x q c'|r]; try discriminate.
    destruct (session_of (arg t)) as [s|] eqn:Hs.
    + destruct Hpc as (_ & Hfn). destruct (fn t).
      * subst r. simpl. intros [= <-]. auto.
      * destruct Hfn as (x & scope & Hcell & ->). simpl. intros [= <-].
        destruct (session_of_binding _ _ _ Hwf Hs) as (x' & parent & Hb & Hcell').
        cbv zeta in *. rewrite Hcell in Hcell'. injection Hcell' as _ E.
        rewrite <- E in Hb.
        destruct (bindingScope_props (heap st) _ _ Hb) as (Hso & Hbi & Hw).
        split; [auto|]. unfold single_binding in *. now rewrite Hso, Hbi.
    + destruct Hpc as (x & q & _ & Hq & ->).
      assert (ret_ctx (result_of (fn t) x
                (WithValue (arg t) sessionContextKey (ptr_sessionContextValue q)))
              = Some (WithValue (arg t) sessionContextKey (ptr_sessionContextValue q)))
        as -> by (destruct (fn t); reflexivity).
      intros [= <-]. split.
      * simpl. split; [assumption|]. eauto.
      * unfold single_binding in *. rewrite session_of_WithValue_self. simpl.
        rewrite Hsb, Hs. reflexivity.
  - destruct (eval (pool cfg) e) as [c0|]; simpl; [|discriminate].
    intros [= <-]. destruct (IH c0 eq_refl). split; assumption.
  - destruct (eval (pool cfg) e) as [c0|]; simpl; [|discriminate].
    intros [= <-]. destruct (IH c0 eq_refl). split; [simpl; auto | assumption].
Qed.

Lemma ret_ctx_result_of f x c : ret_ctx (result_of f x c) = Some c.
Proof. now destruct f. Qed.

(** How one step of thread [i] carries the invariant over: published
    structs are kept, the structs of the other threads are untouched, the
    stepping thread is again in a known state, a logged allocation is its
    first, and the struct it has created is the same as before or new. *)
Lemma Inv_update st st' cfg i t p ev :
  Inv st cfg ->
  pool cfg !! i = Some t ->
  published_kept (heap st) (heap st') ->
  (forall j tj q, j <> i -> pool cfg !! j = Some tj -> created tj = Some q ->
     heap st' !! q = heap st !! q) ->
  thread_inv (heap st') (trace cfg ++ ev) i {| fn := fn t; arg := arg t; pc := p |} ->
  (ev = [] \/ exists x, ev = [(i, x)] /\ i ∉ (trace cfg).*1) ->
  ((created {| fn := fn t; arg := arg t; pc := p |} = created t /\
    forall l, is_Some (heap st' !! l) -> is_Some (heap st !! l)) \/
   (exists l, created {| fn := fn t; arg := arg t; pc := p |} = Some l /\
      created t = None /\ heap st !! l = None /\
      forall l', is_Some (heap st' !! l') -> l' = l \/ is_Some (heap st !! l'))) ->
  Inv st' {| pool := <[i := {| fn := fn t; arg := arg t; pc := p |}]> (pool cfg);
             trace := trace cfg ++ ev |}.
Proof.
  intros HI Ht Hk Hothers Hnew Hev Hcr.
  set (t' := {| fn := fn t; arg := arg t; pc := p |}) in *.
  pose proof (lookup_lt_Some _ _ _ Ht) as Hlt.
  assert (forall j, j ∈ (trace cfg ++ ev).*1 -> j = i \/ j ∈ (trace cfg).*1) as Hfst.
  { intros j. rewrite fmap_app, elem_of_app. intros [?|Hj]; [auto|].
    destruct Hev as [->|(x & -> & _)]; simpl in Hj.
    - now apply elem_of_nil in Hj.
    - apply list_elem_of_singleton in Hj. auto. }
  constructor; simpl.
  - intros j tj Hj. destruct (decide (i = j)) as [<-|Hne].
    + rewrite list_lookup_insert_eq in Hj by assumption. now injection Hj as <-.
    + rewrite list_lookup_insert_ne in Hj by assumption.
      apply (thread_inv_frame (heap st) _ (trace cfg)); auto.
      * now apply (inv_threads _ _ HI).
      * intros q Hq. apply (Hothers j tj); auto.
      * intros y Hy. apply elem_of_app. auto.
      * intros Hin. destruct (Hfst _ Hin); [congruence | assumption].
  - intros j k tj tk q Hj Hk' Hcj Hck.
    assert (forall m tm, m <> i -> pool cfg !! m = Some tm -> created tm = Some q ->
              created t' = Some q -> False) as Hclash.
    { intros m tm Hm Hpm Hcm Hct. destruct Hcr as [[Heq _]|(l & Hl & _ & Hnone & _)].
      - rewrite Heq in Hct. apply Hm. exact (inv_owner _ _ HI _ _ _ _ _ Hpm Ht Hcm Hct).
      - rewrite Hl in Hct. injection Hct as ->.
        destruct (created_allocated _ _ _ _ _ (inv_threads _ _ HI _ _ Hpm) Hcm) as [? E].
        rewrite E in Hnone. discriminate. }
    destruct (decide (i = j)) as [<-|Hnj], (decide (i = k)) as [<-|Hnk]; auto.
    + rewrite list_lookup_insert_eq in Hj by assumption. injection Hj as <-.
      rewrite list_lookup_insert_ne in Hk' by assumption.
      exfalso. eapply (Hclash k tk); eauto.
    + rewrite list_lookup_insert_eq in Hk' by assumption. injection Hk' as <-.
      rewrite list_lookup_insert_ne in Hj by assumption.
      exfalso. eapply (Hclash j tj); eauto.
    + rewrite list_lookup_insert_ne in Hj, Hk' by assumption.
      exact (inv_owner _ _ HI _ _ _ _ _ Hj Hk' Hcj Hck).
  - intros l Hl.
    assert (is_Some (heap st !! l) ->
            exists j tj, <[i:=t']> (pool cfg) !! j = Some tj /\ created tj = Some l) as Hold.
    { intros Hl0. destruct (inv_cells _ _ HI _ Hl0) as (j & tj & Hj & Hcj).
      destruct (decide (i = j)) as [<-|Hne].
      - exists i, t'. rewrite list_lookup_insert_eq by assumption. split; [reflexivity|].
        assert (tj = t) as -> by congruence.
        destruct Hcr as [[Heq _]|(l0 & _ & Hnone & _)]; congruence.
      - exists j, tj. rewrite list_lookup_insert_ne by assumption. auto. }
    destruct Hcr as [[_ Hdom]|(l0 & Hl0 & _ & _ & Hdom)]; [auto|].
    destruct (Hdom _ Hl) as [->|?]; [|auto].
    exists i, t'. rewrite list_lookup_insert_eq by assumption. auto.
  - rewrite fmap_app. apply NoDup_app. split; [apply (inv_trace_nodup _ _ HI)|].
    destruct Hev as [->|(x & -> & Hni)]; simpl.
    + split; [intros ? _ Hin; now apply elem_of_nil in Hin | constructor].
    + split; [|apply NoDup_singleton].
      intros j Hj Hin. apply list_elem_of_singleton in Hin. congruence.
  - intros j Hj. rewrite length_insert.
    destruct (Hfst _ Hj) as [->|Hin]; [assumption|].
    now apply (inv_trace_bound _ _ HI).
Qed.

Lemma Inv_update_local st cfg i t p :
  Inv st cfg ->
  pool cfg !! i = Some t ->
  thread_inv (heap st) (trace cfg) i {| fn := fn t; arg := arg t; pc := p |} ->
  created {| fn := fn t; arg := arg t; pc := p |} = created t ->
  Inv st {| pool := <[i := {| fn := fn t; arg := arg t; pc := p |}]> (pool cfg);
            trace := trace cfg ++ [] |}.
Proof.
  intros HI Ht Hnew Hcr.
  apply (Inv_update st st cfg i t p [] HI Ht); auto.
  - apply published_kept_refl.
  - now rewrite app_nil_r.
Qed.

(** No step panics, every step keeps the invariant and the published
    structs, and only line 97 moves the counter, by one increment. *)
Lemma step_Inv st cfg i t :
  Inv st cfg ->
  pool cfg !! i = Some t ->
  exists p st',
    step t st = Ok (p, st') /\
    Inv st' (after_step cfg i t p) /\
    published_kept (heap st) (heap st') /\
    ((lastSessionID st' = lastSessionID st /\ allocation (pc t) p = None) \/
     (pc t = pcAdd /\
      p = pcAlloc {| id := uint64_add (lastSessionID st) 1 |} /\
      lastSessionID st' = uint64_add (lastSessionID st) 1)).
Proof.
  intros HI Ht.
  pose proof (inv_threads _ _ HI _ _ Ht) as Hti.
  pose proof Hti as (Hwf & Hsb & Hpc).
  destruct t as [f a q]. unfold after_step. simpl in *.
  destruct q as [|s|s x| |x|x q|x q c|r]; unfold step; simpl.
  - (* the guard *)
    change (assert_sessionContextValue (Value a sessionContextKey)) with (session_of a).
    destruct (session_of a) as [s|] eqn:Hs; [destruct f|];
      (eexists _, _; split; [reflexivity|];
       split; [|split; [apply published_kept_refl | left; auto]];
       apply (Inv_update_local st cfg i _ _ HI Ht);
       [ split; [assumption|]; split; [assumption|]; simpl; rewrite ?Hs; auto
       | unfold created; simpl; rewrite ?Hs; reflexivity ]).
  - (* s.sesID *)
    destruct Hpc as (-> & Hs & Hni).
    destruct (session_of_binding _ _ _ Hwf Hs) as (x & parent & Hb & Hcell).
    cbv zeta in *. unfold bind, load. rewrite Hcell. simpl.
    eexists _, _; split; [reflexivity|].
    split; [|split; [apply published_kept_refl | left; auto]].
    apply (Inv_update_local st cfg i _ _ HI Ht); [|reflexivity].
    split; [assumption|]. split; [assumption|]. simpl. eauto.
  - (* s.sesCtx and return *)
    destruct Hpc as (-> & Hs & Hni & scope & Hcell).
    unfold bind, load. rewrite Hcell. simpl.
    eexists _, _; split; [reflexivity|].
    split; [|split; [apply published_kept_refl | left; auto]].
    apply (Inv_update_local st cfg i _ _ HI Ht).
    + split; [assumption|]. split; [assumption|]. simpl. rewrite Hs. eauto.
    + unfold created. simpl. now rewrite Hs.
  - (* atomic.AddUint64 *)
    destruct Hpc as (Hs & Hni).
    unfold bind, atomic_AddUint64_lastSessionID, ret. simpl.
    eexists _, _; split; [reflexivity|]. simpl.
    split; [|split; [apply published_kept_refl | right; auto]].
    eapply (Inv_update st _ cfg i _ _ _ HI Ht); simpl.
    + apply published_kept_refl.
    + reflexivity.
    + split; [assumption|]. split; [assumption|]. simpl. split; [assumption|].
      apply elem_of_app. right. now apply list_elem_of_singleton.
    + right. eauto.
    + left. auto.
  - (* the new struct *)
    destruct Hpc as (Hs & Hin).
    unfold bind, new_sessionContextValue, ret. simpl.
    pose proof (fresh_loc_None (heap st)) as Hfresh.
    set (l := fresh (dom (heap st))) in *.
    assert (published_kept (heap st)
              (<[l:={| sesID := x; sesCtx := None |}]> (heap st))) as Hk.
    { apply published_kept_subseteq. now apply insert_subseteq. }
    eexists _, _; split; [reflexivity|]. simpl.
    split; [|split; [assumption | left; auto]].
    apply (Inv_update st _ cfg i _ _ [] HI Ht); simpl.
    + assumption.
    + intros j tj q Hne Hj Hq.
      destruct (created_allocated _ _ _ _ _ (inv_threads _ _ HI _ _ Hj) Hq) as [v Hv].
      apply lookup_insert_ne. intros ->. congruence.
    + split; [eapply ctx_wf_kept; eauto|]. split; [assumption|]. simpl.
      rewrite app_nil_r, lookup_insert_eq. auto.
    + left. reflexivity.
    + right. exists l. repeat split; auto.
      intros l' Hl'. apply lookup_insert_is_Some in Hl'.
      destruct Hl' as [->|[_ ?]]; auto.
  - (* context.WithValue *)
    destruct Hpc as (Hs & Hin & Hcell).
    eexists _, _; split; [reflexivity|].
    split; [|split; [apply published_kept_refl | left; auto]].
    apply (Inv_update_local st cfg i _ _ HI Ht); [|reflexivity].
    split; [assumption|]. split; [assumption|]. simpl. auto.
  - (* ctxValue.sesCtx = ctx and return *)
    destruct Hpc as (Hs & Hin & Hcell & ->).
    unfold bind, store_sesCtx, ret. rewrite Hcell. simpl.
    set (c := WithValue a sessionContextKey (ptr_sessionContextValue q)) in *.
    assert (published_kept (heap st)
              (<[q:={| sesID := x; sesCtx := Some c |}]> (heap st))) as Hk.
    { intros l v Hl Hv. rewrite lookup_insert_ne; [assumption|].
      intros ->. rewrite Hcell in Hl. injection Hl as <-. now apply Hv. }
    eexists _, _; split; [reflexivity|]. simpl.
    split; [|split; [assumption | left; auto]].
    apply (Inv_update st _ cfg i _ _ [] HI Ht); simpl.
    + assumption.
    + intros j tj q' Hne Hj Hq'. apply lookup_insert_ne. intros ->.
      apply Hne. apply (inv_owner _ _ HI _ _ _ _ _ Hj Ht Hq'). reflexivity.
    + split; [eapply ctx_wf_kept; eauto|]. split; [assumption|]. simpl.
      rewrite Hs, app_nil_r. exists x, q. rewrite lookup_insert_eq. auto.
    + left. reflexivity.
    + left. split.
      * unfold created. simpl. rewrite Hs, ret_ctx_result_of. reflexivity.
      * intros l Hl. apply lookup_insert_is_Some in Hl.
        destruct Hl as [<-|[_ ?]]; [rewrite Hcell; eauto | assumption].
  - (* returned *)
    eexists _, _; split; [reflexivity|].
    split; [|split; [apply published_kept_refl | left; auto]].
    apply (Inv_update_local st cfg i _ _ HI Ht); [assumption | reflexivity].
Qed.

Lemma call_Inv st cfg f c :
  Inv st cfg ->
  ctx_wf (heap st) c -> single_binding c ->
  Inv st (after_call cfg f c).
Proof.
  intros HI Hwf Hsb. unfold after_call. constructor; simpl.
  - intros i t Hi. apply lookup_app_Some in Hi.
    destruct Hi as [Hi|[Hge Hi]]; [now apply (inv_threads _ _ HI)|].
    apply list_lookup_singleton_Some in Hi. destruct Hi as [Hz <-].
    split; [assumption|]. split; [assumption|]. simpl.
    intros Hin. apply (inv_trace_bound _ _ HI) in Hin. lia.
  - intros i j ti tj p Hi Hj Hci Hcj.
    apply lookup_app_Some in Hi, Hj.
    destruct Hi as [Hi|[_ Hi]], Hj as [Hj|[_ Hj]].
    + exact (inv_owner _ _ HI _ _ _ _ _ Hi Hj Hci Hcj).
    + apply list_lookup_singleton_Some in Hj. destruct Hj as [_ <-]. discriminate.
    + apply list_lookup_singleton_Some in Hi. destruct Hi as [_ <-]. discriminate.
    + apply list_lookup_singleton_Some in Hi. destruct Hi as [_ <-]. discriminate.
  - intros l Hl. destruct (inv_cells _ _ HI _ Hl) as (i & t & Hi & Hc).
    exists i, t. split; [now apply lookup_app_l_Some | assumption].
  - apply (inv_trace_nodup _ _ HI).
  - intros i Hi. apply (inv_trace_bound _ _ HI) in Hi. rewrite length_app. simpl. lia.
Qed.

Lemma Inv_start : Inv initial start.
Proof.
  constructor; simpl.
  - intros i t Hi. now rewrite lookup_nil in Hi.
  - intros i j ti tj p Hi. now rewrite lookup_nil in Hi.
  - intros l [v Hl]. now rewrite lookup_empty in Hl.
  - constructor.
  - intros i Hi. now apply elem_of_nil in Hi.
Qed.

Lemma ids_in_order_start : ids_in_order initial start.
Proof.
  split; [reflexivity|]. intros k i x Hk. simpl in Hk. now rewrite lookup_nil in Hk.
Qed.

(** Every action succeeds and keeps the invariant; the trace only grows,
    by at most one entry, and the numbering of the ids goes on as long as
    the counter does not wrap. *)
Lemma do_action_Inv a st cfg :
  Inv st cfg ->
  exists cfg' st',
    do_action a cfg st = Ok (cfg', st') /\
    Inv st' cfg' /\
    published_kept (heap st) (heap st') /\
    (length (trace cfg') <= S (length (trace cfg)))%nat /\
    (ids_in_order st cfg ->
     (N.of_nat (S (length (trace cfg))) < uint64_modulus)%N ->
     ids_in_order st' cfg').
Proof.
  intros HI. destruct a as [f e|i]; simpl.
  - destruct (eval (pool cfg) e) as [c|] eqn:He.
    + destruct (eval_wf _ _ _ _ HI He) as [Hwf Hsb].
      eexists _, _. split; [reflexivity|].
      split; [now apply call_Inv|]. split; [apply published_kept_refl|].
      split; [simpl; lia | auto].
    + eexists _, _. split; [reflexivity|].
      split; [assumption|]. split; [apply published_kept_refl|].
      split; [lia | auto].
  - destruct (pool cfg !! i) as [t|] eqn:Ht.
    + destruct (step_Inv _ _ _ _ HI Ht) as (p & st' & Hstep & HI' & Hk & Hcnt).
      unfold bind. rewrite Hstep. eexists _, _. split; [reflexivity|].
      split; [assumption|]. split; [assumption|].
      destruct Hcnt as [[Hsame Hno]|(Hpc & -> & Hinc)];
        unfold after_step, ids_in_order; simpl.
      * rewrite Hno, app_nil_r. split; [lia|].
        intros [Hc Hids] _. split; [congruence | assumption].
      * rewrite Hpc. simpl. rewrite length_app. simpl. split; [lia|].
        intros [Hc Hids] Hbound. rewrite Hinc, Hc.
        assert (uint64_add (N.of_nat (length (trace cfg))) 1
                = N.of_nat (length (trace cfg) + 1)) as Hadd.
        { rewrite uint64_add_1_nowrap by lia. lia. }
        split; [assumption|].
        intros k j x Hk'. apply lookup_app_Some in Hk'.
        destruct Hk' as [Hk'|[Hge Hk']]; [now apply (Hids k j)|].
        apply list_lookup_singleton_Some in Hk'. destruct Hk' as [Hz [= <- <-]].
        simpl. rewrite Hadd. lia.
    + eexists _, _. split; [reflexivity|].
      split; [assumption|]. split; [apply published_kept_refl|].
      split; [lia | auto].
Qed.

Lemma run_Inv acts : forall st cfg,
  Inv st cfg ->
  exists cfg' st',
    run acts cfg st = Ok (cfg', st') /\
    Inv st' cfg' /\
    published_kept (heap st) (heap st') /\
    (length (trace cfg') <= length (trace cfg) + length acts)%nat /\
    (ids_in_order st cfg ->
     (N.of_nat (length (trace cfg) + length acts) < uint64_modulus)%N ->
     ids_in_order st' cfg').
Proof.
  induction acts as [|a acts IH]; intros st cfg HI.
  - exists cfg, st. split; [reflexivity|]. split; [assumption|].
    split; [apply published_kept_refl|]. split; [simpl; lia | auto].
  - destruct (do_action_Inv a _ _ HI) as (cfg1 & st1 & Hdo & HI1 & Hk1 & Hlen1 & Hids1).
    destruct (IH _ _ HI1) as (cfg2 & st2 & Hrun & HI2 & Hk2 & Hlen2 & Hids2).
    exists cfg2, st2. simpl. unfold bind. rewrite Hdo.
    split; [assumption|]. split; [assumption|].
    split; [eapply published_kept_trans; eauto|].
    split; [lia|].
    intros Hids Hbound. apply Hids2; [apply Hids1|]; [assumption| |]; lia.
Qed.

(** From the start of the process: any client, under any schedule, runs
    without a panic into a configuration where the invariant holds. *)
Lemma reachable_Inv acts :
  exists cfg st, run acts start initial = Ok (cfg, st) /\ Inv st cfg.
Proof.
  destruct (run_Inv acts _ _ Inv_start) as (cfg & st & Hrun & HI & _).
  eauto.
Qed.

(** In particular every context a client can get hold of satisfies what
    the theorems about single calls assume of their argument. *)
Lemma reachable_contexts_wf acts cfg st e c :
  run acts start initial = Ok (cfg, st) ->
  eval (pool cfg) e = Some c ->
  ctx_wf (heap st) c /\ single_binding c.
Proof.
  intros Hrun He. destruct (reachable_Inv acts) as (cfg' & st' & Hrun' & HI).
  rewrite Hrun in Hrun'. injection Hrun' as <- <-.
  exact (eval_wf _ _ _ _ HI He).
Qed.

(** So does every run of the system, from any configuration in which the
    invariant holds. *)
Lemma run_keeps_published acts st cfg cfg' st' :
  Inv st cfg -> run acts cfg st = Ok (cfg', st') ->
  published_kept (heap st) (heap st').
Proof.
  intros HI Hrun. destruct (run_Inv acts _ _ HI) as (cfg2 & st2 & Hrun2 & _ & Hk & _).
  rewrite Hrun in Hrun2. now injection Hrun2 as _ <-.
Qed.

Lemma reachable_ids_in_order acts cfg st :
  (N.of_nat (length acts) < uint64_modulus)%N ->
  run acts start initial = Ok (cfg, st) ->
  Inv st cfg /\ ids_in_order st cfg.
Proof.
  intros Hbound Hrun.
  destruct (run_Inv acts _ _ Inv_start) as (cfg' & st' & Hrun' & HI & _ & _ & Hids).
  rewrite Hrun in Hrun'. injection Hrun' as <- <-.
  split; [assumption|]. apply Hids; [apply ids_in_order_start | assumption].
Qed.

(** The same with the bound put on what matters, the number of allocations
    made: the trace never shrinks, and the numbering holds at the end of a
    run whose allocations number fewer than 2^64. *)
Lemma do_action_ids a st cfg cfg' st' :
  Inv st cfg ->
  do_action a cfg st = Ok (cfg', st') ->
  (length (trace cfg) <= length (trace cfg'))%nat /\
  (ids_in_order st cfg ->
   (N.of_nat (length (trace cfg')) < uint64_modulus)%N ->
   ids_in_order st' cfg').
Proof.
  intros HI Hdo. destruct a as [f e|i]; simpl in Hdo.
  - destruct (eval (pool cfg) e); injection Hdo as <- <-; simpl; auto.
  - destruct (pool cfg !! i) as [t|] eqn:Ht; [|injection Hdo as <- <-; auto].
    destruct (step_Inv _ _ _ _ HI Ht) as (p & st1 & Hstep & _ & _ & Hcnt).
    unfold bind in Hdo. rewrite Hstep in Hdo. injection Hdo as <- <-.
    destruct Hcnt as [[Hsame Hno]|(Hpc & -> & Hinc)];
      unfold after_step, ids_in_order; simpl.
    + rewrite Hno, app_nil_r. split; [lia|].
      intros [Hc Hids] _. split; [congruence | assumption].
    + rewrite Hpc. simpl. rewrite length_app. simpl. split; [lia|].
      intros [Hc Hids] Hbound. rewrite Hinc, Hc.
      assert (uint64_add (N.of_nat (length (trace cfg))) 1
              = N.of_nat (length (trace cfg) + 1)) as Hadd.
      { rewrite uint64_add_1_nowrap by lia. lia. }
      split; [assumption|].
      intros k j x Hk'. apply lookup_app_Some in Hk'.
      destruct Hk' as [Hk'|[Hge Hk']]; [now apply (Hids k j)|].
      apply list_lookup_singleton_Some in Hk'. destruct Hk' as [Hz [= <- <-]].
      simpl. rewrite Hadd. lia.
Qed.

Lemma run_ids acts : forall st cfg cfg' st',
  Inv st cfg ->
  run acts cfg st = Ok (cfg', st') ->
  (length (trace cfg) <= length (trace cfg'))%nat /\
  (ids_in_order st cfg ->
   (N.of_nat (length (trace cfg')) < uint64_modulus)%N ->
   ids_in_order st' cfg').
Proof.
  induction acts as [|a acts IH]; intros st cfg cfg' st' HI; simpl.
  - intros [= <- <-]. auto.
  - unfold bind.
    destruct (do_action_Inv a _ _ HI) as (cfg1 & st1 & Hdo & HI1 & _).
    rewrite Hdo. intros Hrun.
    destruct (do_action_ids _ _ _ _ _ HI Hdo) as [Hlen1 Hids1].
    destruct (IH _ _ _ _ HI1 Hrun) as [Hlen2 Hids2].
    split; [lia|]. intros Hids Hbound. apply Hids2; [|assumption].
    apply Hids1; [assumption | lia].
Qed.

Lemma reachable_ids_in_order_allocations acts cfg st :
  run acts start initial = Ok (cfg, st) ->
  (N.of_nat (length (trace cfg)) < uint64_modulus)%N ->
  Inv st cfg /\ ids_in_order st cfg.
Proof.
  intros Hrun Hbound.
  destruct (reachable_Inv acts) as (cfg' & st' & Hrun' & HI).
  rewrite Hrun in Hrun'. injection Hrun' as <- <-.
  split; [assumption|].
  destruct (run_ids acts _ _ _ _ Inv_start Hrun) as [_ Hids].
  apply Hids; [apply ids_in_order_start | assumption].
Qed.

(** The functions on interface values are, on a context that is not nil,
    the functions on contexts. *)
Lemma Iface_createSession_Some c st :
  Iface.createSession (Some c) st =
    match createSession c st with
    | Ok ((i, c'), st') => Ok ((i, Some c'), st')
    | Panic m => Panic m
    end.
Proof.
  rewrite createSession_eq. cbv zeta.
  unfold Iface.createSession, Iface.WithValue, bind, atomic_AddUint64_lastSessionID,
    new_sessionContextValue, store_sesCtx, ret; simpl.
  rewrite lookup_insert_eq; simpl. now rewrite insert_insert_eq.
Qed.

Lemma Iface_NewSession_Some c st :
  Iface.NewSession (Some c) st =
    match NewSession c st with
    | Ok (c', st') => Ok (Some c', st')
    | Panic m => Panic m
    end.
Proof.
  unfold Iface.NewSession, Iface.Value, NewSession.
  unfold bind at 1. unfold ret at 1.
  destruct (assert_sessionContextValue (Value c sessionContextKey)); [reflexivity|].
  unfold bind. rewrite Iface_createSession_Some.
  destruct (createSession c st) as [[[i c'] st']|m]; reflexivity.
Qed.

Lemma Iface_GetOrCreateSession_Some c st :
  Iface.GetOrCreateSession (Some c) st = GetOrCreateSession c st.
Proof.
  unfold Iface.GetOrCreateSession, Iface.Value, GetOrCreateSession.
  unfold bind at 1. unfold ret at 1.
  destruct (assert_sessionContextValue (Value c sessionContextKey)); [reflexivity|].
  unfold bind. rewrite Iface_createSession_Some.
  destruct (createSession c st) as [[[i c'] st']|m]; reflexivity.
Qed.

(** ** The running system: what the invariants give *)

Lemma NoDup_fst_unique {A B} (l : list (A * B)) i x y :
  NoDup l.*1 -> (i, x) ∈ l -> (i, y) ∈ l -> x = y.
Proof.
  induction l as [|[j z] l IH]; simpl.
  - intros _ H. now apply elem_of_nil in H.
  - intros Hnd Hx Hy. apply NoDup_cons in Hnd as [Hnotin Hnd].
    assert (forall w, (j, w) ∈ l -> False) as Habs.
    { intros w Hw. apply Hnotin. apply list_elem_of_fmap. now exists (j, w). }
    apply elem_of_cons in Hx, Hy.
    destruct Hx as [Hx|Hx], Hy as [Hy|Hy].
    + congruence.
    + injection Hx as -> ->. exfalso. eauto.
    + injection Hy as -> ->. exfalso. eauto.
    + auto.
Qed.

Lemma ids_nonzero st cfg i x :
  ids_in_order st cfg -> (i, x) ∈ trace cfg ->
  IsZero x = false /\ (1 <= id x <= lastSessionID st)%N.
Proof.
  intros [Hc Hids] Hin. apply list_elem_of_lookup in Hin as [k Hk].
  pose proof (Hids _ _ _ Hk) as Hid. pose proof (lookup_lt_Some _ _ _ Hk) as Hlt.
  split; [apply IsZero_false; lia | lia].
Qed.

Lemma ids_injective st cfg i j x :
  ids_in_order st cfg -> (i, x) ∈ trace cfg -> (j, x) ∈ trace cfg -> i = j.
Proof.
  intros [_ Hids] Hi Hj.
  apply list_elem_of_lookup in Hi as [k1 Hk1], Hj as [k2 Hk2].
  pose proof (Hids _ _ _ Hk1) as H1. pose proof (Hids _ _ _ Hk2) as H2.
  assert (k1 = k2) as -> by lia. congruence.
Qed.

Lemma created_traced h tr i t l :
  thread_inv h tr i t -> created t = Some l ->
  exists x, (i, x) ∈ tr /\ sesID <$> h !! l = Some x.
Proof.
  unfold thread_inv, created. intros (_ & _ & Hpc).
  destruct (pc t) as [|s|s x| |x|x q|x q c|r]; try discriminate.
  - intros [= ->]. destruct Hpc as (_ & ? & ->). eauto.
  - intros [= ->]. destruct Hpc as (_ & ? & -> & _). eauto.
  - destruct (session_of (arg t)); [discriminate|].
    destruct Hpc as (x & q & ? & Hq & ->). rewrite ret_ctx_result_of. simpl.
    intros [= <-]. rewrite Hq. eauto.
Qed.

Lemma cell_traced st cfg l v :
  Inv st cfg -> heap st !! l = Some v ->
  exists i t, pool cfg !! i = Some t /\ created t = Some l /\ (i, sesID v) ∈ trace cfg.
Proof.
  intros HI Hl. destruct (inv_cells _ _ HI l) as (i & t & Hi & Hc); [eauto|].
  exists i, t. split; [assumption|]. split; [assumption|].
  destruct (created_traced _ _ _ _ _ (inv_threads _ _ HI _ _ Hi) Hc) as (x & Hx & Hcell).
  rewrite Hl in Hcell. simpl in Hcell. now injection Hcell as ->.
Qed.

(** Distinct bindings never hold the same id. *)
Lemma cells_injective st cfg l1 l2 v1 v2 :
  Inv st cfg -> ids_in_order st cfg ->
  heap st !! l1 = Some v1 -> heap st !! l2 = Some v2 ->
  sesID v1 = sesID v2 -> l1 = l2.
Proof.
  intros HI Hids H1 H2 E.
  destruct (cell_traced _ _ _ _ HI H1) as (i1 & t1 & Hp1 & Hc1 & Ht1).
  destruct (cell_traced _ _ _ _ HI H2) as (i2 & t2 & Hp2 & Hc2 & Ht2).
  rewrite E in Ht1. assert (i1 = i2) as -> by (eapply ids_injective; eauto).
  congruence.
Qed.

(** On a well-formed context both functions return, with a context. *)
Lemma registry_total st ctx :
  ctx_wf (heap st) ctx ->
  (exists c st', NewSession ctx st = Ok (c, st')) /\
  (exists x c st', GetOrCreateSession ctx st = Ok ((x, Some c), st')).
Proof.
  intros Hwf. destruct (session_of ctx) as [l|] eqn:Hs.
  - destruct (session_of_binding _ _ _ Hwf Hs) as (x & parent & _ & Hcell).
    rewrite (NewSession_bound _ _ _ Hs), (GetOrCreateSession_bound _ _ _ Hs), Hcell.
    simpl. split; [eexists _, _ | eexists _, _, _]; reflexivity.
  - rewrite (NewSession_unbound _ _ Hs), (GetOrCreateSession_unbound _ _ Hs).
    rewrite createSession_eq. cbv zeta.
    split; [eexists _, _ | eexists _, _, _]; reflexivity.
Qed.

(** The threads execute the functions: a call run to its end, alone,
    returns what the function returns. *)
Lemma run_thread_NewSession ctx st :
  run_thread 5 {| fn := fnNewSession; arg := ctx; pc := pcEntry |} st =
    match NewSession ctx st with
    | Ok (c, st') => Ok (pcDone (retNewSession c), st')
    | Panic m => Panic m
    end.
Proof.
  destruct (session_of ctx) as [l|] eqn:Hs.
  - rewrite (NewSession_bound _ _ _ Hs).
    unfold run_thread, bind, step; simpl. fold (session_of ctx). rewrite Hs. reflexivity.
  - rewrite (NewSession_unbound _ _ Hs), createSession_eq. cbv zeta.
    unfold run_thread, bind, step, store_sesCtx, new_sessionContextValue,
      atomic_AddUint64_lastSessionID, ret; simpl.
    fold (session_of ctx). rewrite Hs. repeat (unfold bind; simpl).
    rewrite lookup_insert_eq. simpl. now rewrite insert_insert_eq.
Qed.

Lemma run_thread_GetOrCreateSession ctx st :
  run_thread 5 {| fn := fnGetOrCreateSession; arg := ctx; pc := pcEntry |} st =
    match GetOrCreateSession ctx st with
    | Ok ((x, c), st') => Ok (pcDone (retGetOrCreateSession x c), st')
    | Panic m => Panic m
    end.
Proof.
  destruct (session_of ctx) as [l|] eqn:Hs.
  - rewrite (GetOrCreateSession_bound _ _ _ Hs).
    unfold run_thread, bind, step, load, ret; simpl.
    fold (session_of ctx). rewrite Hs. repeat (unfold bind; simpl).
    destruct (heap st !! l) as [v|] eqn:Hl; simpl; [|reflexivity].
    rewrite Hl. reflexivity.
  - rewrite (GetOrCreateSession_unbound _ _ Hs), createSession_eq. cbv zeta.
    unfold run_thread, bind, step, store_sesCtx, new_sessionContextValue,
      atomic_AddUint64_lastSessionID, ret; simpl.
    fold (session_of ctx). rewrite Hs. repeat (unfold bind; simpl).
    rewrite lookup_insert_eq. simpl. now rewrite insert_insert_eq.
Qed.

Lemma step_remaining t st p st' :
  step t st = Ok (p, st') -> (remaining p <= pred (remaining (pc t)))%nat.
Proof.
  destruct t as [f a q]. unfold step; simpl.
  destruct q as [|s|s x| |x|x q|x q c|r]; simpl.
  - destruct (assert_sessionContextValue (Value a sessionContextKey));
      [destruct f|]; intros [= <- _]; simpl; lia.
  - unfold bind, load. destruct (heap st !! s); [|discriminate].
    intros [= <- _]. simpl. lia.
  - unfold bind, load. destruct (heap st !! s); [|discriminate].
    intros [= <- _]. simpl. lia.
  - intros [= <- _]. simpl. lia.
  - intros [= <- _]. simpl. lia.
  - intros [= <- _]. simpl. lia.
  - unfold bind, store_sesCtx. destruct (heap st !! q); [|discriminate].
    intros [= <- _]. simpl. lia.
  - intros [= <- _]. simpl. lia.
Qed.

Lemma remaining_0 p : remaining p = 0%nat -> exists r, p = pcDone r.
Proof. destruct p; try discriminate. eauto. Qed.

(** A call returns after at most five steps of its own, whatever the other
    threads have done before. *)
Lemma run_to_return n : forall st cfg i t,
  Inv st cfg ->
  pool cfg !! i = Some t ->
  (remaining (pc t) <= n)%nat ->
  exists cfg' st' t' r,
    run (replicate n (Run i)) cfg st = Ok (cfg', st') /\
    pool cfg' !! i = Some t' /\ pc t' = pcDone r /\
    fn t' = fn t /\ arg t' = arg t.
Proof.
  induction n as [|n IH]; intros st cfg i t HI Ht Hrem.
  - destruct (remaining_0 (pc t)) as [r Hr]; [lia|].
    exists cfg, st, t, r. simpl. auto.
  - destruct (step_Inv _ _ _ _ HI Ht) as (p & st1 & Hstep & HI1 & _).
    pose proof (step_remaining _ _ _ _ Hstep) as Hdec.
    pose proof (lookup_lt_Some _ _ _ Ht) as Hlt.
    destruct (IH st1 (after_step cfg i t p) i {| fn := fn t; arg := arg t; pc := p |})
      as (cfg' & st' & t' & r & Hrun & Hp & Hpc & Hfn & Harg).
    + assumption.
    + unfold after_step. simpl. now apply list_lookup_insert_eq.
    + simpl. lia.
    + exists cfg', st', t', r. simpl. unfold bind. rewrite Ht.
      unfold bind. rewrite Hstep. auto.
Qed.

(** ** The allocator and the registry under concurrent callers *)

(** C4.  The zero id reports [IsZero]; and no allocation yields the zero
    id: in every run, under any schedule, every id the allocator hands out,
    every id [GetOrCreateSession] returns, every id bound to a context
    [NewSession] returns and every id held by a binding has [IsZero] false.
    The hypothesis is the one the specification of the allocator sets: the
    64-bit counter has not wrapped around, that is, fewer than 2^64 sessions
    have been allocated since the start of the process. *)
Theorem allocated_ids_are_nonzero (acts : list Action) (cfg : Config) (st : State) :
  run acts start initial = Ok (cfg, st) ->
  (N.of_nat (length (trace cfg)) < uint64_modulus)%N ->
  IsZero {| id := 0 |} = true /\
  (forall i x, (i, x) ∈ trace cfg -> IsZero x = false) /\
  (forall i t x c,
     pool cfg !! i = Some t -> pc t = pcDone (retGetOrCreateSession x c) ->
     IsZero x = false) /\
  (forall i t c,
     pool cfg !! i = Some t -> pc t = pcDone (retNewSession c) ->
     exists x, bound_id (heap st) c = Some x /\ IsZero x = false) /\
  (forall l v, heap st !! l = Some v -> IsZero (sesID v) = false).
Proof.
  intros Hrun Hbound.
  destruct (reachable_ids_in_order_allocations _ _ _ Hrun Hbound) as [HI Hids].
  assert (forall i x, (i, x) ∈ trace cfg -> IsZero x = false) as Htr.
  { intros i x Hin. now destruct (ids_nonzero _ _ _ _ Hids Hin). }
  assert (forall l v, heap st !! l = Some v -> IsZero (sesID v) = false) as Hcells.
  { intros l v Hl. destruct (cell_traced _ _ _ _ HI Hl) as (i & t & _ & _ & Hin). eauto. }
  split; [reflexivity|]. split; [assumption|]. split; [|split; [|assumption]].
  - intros i t x c Ht Hpc.
    pose proof (inv_threads _ _ HI _ _ Ht) as (Hwf & _ & Hinv). rewrite Hpc in Hinv.
    destruct (session_of (arg t)) as [s|].
    + destruct Hinv as (_ & Hfn). destruct (fn t); [discriminate|].
      destruct Hfn as (x' & scope & Hcell & [= -> ->]). apply (Hcells _ _ Hcell).
    + destruct Hinv as (x' & q & Hin & _ & Hr). destruct (fn t); [discriminate|].
      injection Hr as -> _. eauto.
  - intros i t c Ht Hpc.
    pose proof (inv_threads _ _ HI _ _ Ht) as (Hwf & _ & Hinv). rewrite Hpc in Hinv.
    destruct (session_of (arg t)) as [s|] eqn:Hs.
    + destruct Hinv as (_ & Hfn). destruct (fn t).
      * injection Hfn as ->.
        destruct (session_of_binding _ _ _ Hwf Hs) as (x & parent & _ & Hcell).
        exists x. unfold bound_id. rewrite Hs, Hcell. split; [reflexivity|].
        apply (Hcells _ _ Hcell).
      * destruct Hfn as (? & ? & _ & [=]).
    + destruct Hinv as (x & q & Hin & Hcell & Hr). destruct (fn t); [|discriminate].
      injection Hr as ->. exists x. unfold bound_id.
      rewrite session_of_WithValue_self, Hcell. split; [reflexivity | eauto].
Qed.

Lemma allocated_ids_are_nonzero_witness :
  run race start initial = Ok (race_end.1, race_end.2) /\
  (N.of_nat (length (trace race_end.1)) < uint64_modulus)%N /\
  (forall l v, heap race_end.2 !! l = Some v -> IsZero (sesID v) = false).
Proof.
  split; [vm_compute; reflexivity|]. split; [vm_compute; reflexivity|].
  apply (allocated_ids_are_nonzero race race_end.1 race_end.2).
  - vm_compute. reflexivity.
  - vm_compute. reflexivity.
Defined.

(** The hypothesis cannot be dropped: were [lastSessionID] ever to stand at
    2^64 - 1, after that many allocations, the next one would wrap to the
    zero id. *)
Lemma allocation_at_wrap_is_zero :
  let c := WithValue Background sessionContextKey (ptr_sessionContextValue 0) in
  GetOrCreateSession Background last_before_wrap =
    Ok (({| id := 0 |}, Some c),
        {| lastSessionID := 0;
           heap := {[ 0%nat := {| sesID := {| id := 0 |}; sesCtx := Some c |} ]} |}) /\
  IsZero {| id := 0 |} = true.
Proof. split; vm_compute; reflexivity. Qed.

(** C5.  The counter starts at 0; every allocation is one atomic increment
    of it by 1 ([createSession] returns the incremented value and leaves it
    in the counter, and in a run the counter equals the number of
    allocations made).  As long as the counter has not wrapped, the
    allocations of a run, in the order in which they happen under any
    schedule, get the ids 1, 2, 3, ...: strictly increasing, never zero. *)
Theorem allocations_strictly_increase (acts : list Action) (cfg : Config) (st : State) :
  (N.of_nat (length acts) < uint64_modulus)%N ->
  run acts start initial = Ok (cfg, st) ->
  lastSessionID initial = 0%N /\
  lastSessionID st = N.of_nat (length (trace cfg)) /\
  (forall k i x, trace cfg !! k = Some (i, x) -> id x = (N.of_nat k + 1)%N) /\
  (forall k1 k2 i1 i2 x1 x2,
     (k1 < k2)%nat ->
     trace cfg !! k1 = Some (i1, x1) -> trace cfg !! k2 = Some (i2, x2) ->
     (id x1 < id x2)%N) /\
  (forall i x, (i, x) ∈ trace cfg -> IsZero x = false) /\
  (forall ctx s,
     exists x c s',
       createSession ctx s = Ok ((x, c), s') /\
       id x = uint64_add (lastSessionID s) 1 /\
       lastSessionID s' = id x /\
       ((lastSessionID s + 1 < uint64_modulus)%N ->
        id x = (lastSessionID s + 1)%N /\ IsZero x = false)).
Proof.
  intros Hbound Hrun.
  destruct (reachable_ids_in_order _ _ _ Hbound Hrun) as [HI [Hc Hids]].
  split; [reflexivity|]. split; [assumption|].
  split; [intros k i x Hk; rewrite (Hids _ _ _ Hk); lia|].
  split.
  { intros k1 k2 i1 i2 x1 x2 Hlt H1 H2.
    rewrite (Hids _ _ _ H1), (Hids _ _ _ H2). lia. }
  split.
  { intros i x Hin. now destruct (ids_nonzero st cfg i x (conj Hc Hids) Hin). }
  intros ctx s. rewrite createSession_eq. cbv zeta.
  eexists _, _, _. split; [reflexivity|]. simpl.
  split; [reflexivity|]. split; [reflexivity|].
  intros Hnowrap. rewrite uint64_add_1_nowrap by assumption.
  split; [reflexivity|]. apply IsZero_false. simpl. lia.
Qed.

Lemma allocations_strictly_increase_witness :
  (N.of_nat (length race) < uint64_modulus)%N /\
  run race start initial = Ok (race_end.1, race_end.2) /\
  (forall k i x, trace race_end.1 !! k = Some (i, x) -> id x = (N.of_nat k + 1)%N).
Proof.
  split; [vm_compute; reflexivity|]. split; [vm_compute; reflexivity|].
  apply (allocations_strictly_increase race race_end.1 race_end.2).
  - vm_compute. reflexivity.
  - vm_compute. reflexivity.
Defined.

(** C6, as the code has it.  Under any interleaving of any calls, a call
    on a scope without binding makes exactly one allocation, its own, and
    binds the id to a new child of the scope it was given; a call on a scope
    with a binding allocates nothing.  Sibling scopes of an unbound root
    therefore get one session each, not one for the root.  As long as the
    counter has not wrapped, no two allocations and no two bindings share an
    id. *)
Theorem racing_calls_allocate_once_each (acts : list Action) (cfg : Config) (st : State) :
  (N.of_nat (length acts) < uint64_modulus)%N ->
  run acts start initial = Ok (cfg, st) ->
  (forall i t r,
     pool cfg !! i = Some t -> pc t = pcDone r -> session_of (arg t) = None ->
     exists x l,
       let c := WithValue (arg t) sessionContextKey (ptr_sessionContextValue l) in
       r = result_of (fn t) x c /\
       heap st !! l = Some {| sesID := x; sesCtx := Some c |} /\
       (i, x) ∈ trace cfg /\
       forall y, (i, y) ∈ trace cfg -> y = x) /\
  (forall i t,
     pool cfg !! i = Some t -> is_Some (session_of (arg t)) ->
     i ∉ (trace cfg).*1) /\
  (forall i j x, (i, x) ∈ trace cfg -> (j, x) ∈ trace cfg -> i = j) /\
  (forall l1 l2 v1 v2,
     heap st !! l1 = Some v1 -> heap st !! l2 = Some v2 ->
     l1 <> l2 -> sesID v1 <> sesID v2) /\
  (forall i j ti tj ri rj,
     pool cfg !! i = Some ti -> pool cfg !! j = Some tj -> i <> j ->
     pc ti = pcDone ri -> pc tj = pcDone rj ->
     session_of (arg ti) = None -> session_of (arg tj) = None ->
     exists xi ci xj cj,
       ri = result_of (fn ti) xi ci /\ rj = result_of (fn tj) xj cj /\
       bound_id (heap st) ci = Some xi /\ bound_id (heap st) cj = Some xj /\
       xi <> xj /\ ci <> cj).
Proof.
  intros Hbound Hrun.
  destruct (reachable_ids_in_order _ _ _ Hbound Hrun) as [HI Hids].
  assert (forall i t r,
     pool cfg !! i = Some t -> pc t = pcDone r -> session_of (arg t) = None ->
     exists x l,
       let c := WithValue (arg t) sessionContextKey (ptr_sessionContextValue l) in
       r = result_of (fn t) x c /\
       heap st !! l = Some {| sesID := x; sesCtx := Some c |} /\
       (i, x) ∈ trace cfg /\
       forall y, (i, y) ∈ trace cfg -> y = x) as Hone.
  { intros i t r Ht Hpc Hs.
    pose proof (inv_threads _ _ HI _ _ Ht) as (_ & _ & Hinv).
    rewrite Hpc, Hs in Hinv. destruct Hinv as (x & l & Hin & Hcell & ->).
    exists x, l. cbv zeta. repeat split; auto.
    intros y Hy. exact (NoDup_fst_unique _ _ _ _ (inv_trace_nodup _ _ HI) Hy Hin). }
  split; [assumption|]. split; [|split; [|split]].
  - intros i t Ht [s Hs].
    pose proof (inv_threads _ _ HI _ _ Ht) as (_ & _ & Hinv).
    destruct (pc t) as [|s'|s' x| |x|x q|x q c|r]; rewrite ?Hs in Hinv;
      try (destruct Hinv as (Hnone & _); discriminate); tauto.
  - intros i j x. apply (ids_injective _ _ _ _ _ Hids).
  - intros l1 l2 v1 v2 H1 H2 Hne E. apply Hne.
    exact (cells_injective _ _ _ _ _ _ HI Hids H1 H2 E).
  - intros i j ti tj ri rj Hi Hj Hne Hpi Hpj Hsi Hsj.
    destruct (Hone _ _ _ Hi Hpi Hsi) as (xi & li & -> & Hci & Hini & _).
    destruct (Hone _ _ _ Hj Hpj Hsj) as (xj & lj & -> & Hcj & Hinj & _).
    eexists xi, _, xj, _. split; [reflexivity|]. split; [reflexivity|].
    unfold bound_id. rewrite !session_of_WithValue_self, Hci, Hcj. simpl.
    split; [reflexivity|]. split; [reflexivity|].
    assert (xi <> xj) as Hx.
    { intros ->. apply Hne. exact (ids_injective _ _ _ _ _ Hids Hini Hinj). }
    split; [assumption|].
    intros [= _ ->]. rewrite Hci in Hcj. congruence.
Qed.

Lemma racing_calls_allocate_once_each_witness :
  (N.of_nat (length race) < uint64_modulus)%N /\
  run race start initial = Ok (race_end.1, race_end.2) /\
  (forall i j x, (i, x) ∈ trace race_end.1 -> (j, x) ∈ trace race_end.1 -> i = j).
Proof.
  split; [vm_compute; reflexivity|]. split; [vm_compute; reflexivity|].
  apply (racing_calls_allocate_once_each race race_end.1 race_end.2).
  - vm_compute. reflexivity.
  - vm_compute. reflexivity.
Defined.

(** C6 as stated fails: three calls racing on scopes freshly derived from
    the same root [Background] without binding, two of them on the same
    scope [a0] and one on its sibling [a1], all allocate.  The root's
    ancestry receives the ids 1, 2 and 3, and the ancestry of [a0] alone the
    ids 2 and 1: the first-time calls do not collapse to one allocation. *)
Lemma racing_siblings_get_separate_sessions :
  let a0 := WithCancel Background 1 in
  let a1 := WithCancel Background 2 in
  let c0 := WithValue a0 sessionContextKey (ptr_sessionContextValue 0) in
  let c1 := WithValue a0 sessionContextKey (ptr_sessionContextValue 1) in
  let c2 := WithValue a1 sessionContextKey (ptr_sessionContextValue 2) in
  run race start initial =
    Ok ({| pool :=
             [ {| fn := fnGetOrCreateSession; arg := a0;
                  pc := pcDone (retGetOrCreateSession {| id := 2 |} (Some c0)) |};
               {| fn := fnGetOrCreateSession; arg := a0;
                  pc := pcDone (retGetOrCreateSession {| id := 1 |} (Some c1)) |};
               {| fn := fnGetOrCreateSession; arg := a1;
                  pc := pcDone (retGetOrCreateSession {| id := 3 |} (Some c2)) |} ];
           trace := [ (1%nat, {| id := 1 |}); (0%nat, {| id := 2 |});
                      (2%nat, {| id := 3 |}) ] |},
        {| lastSessionID := 3;
           heap := {[ 0%nat := {| sesID := {| id := 2 |}; sesCtx := Some c0 |};
                      1%nat := {| sesID := {| id := 1 |}; sesCtx := Some c1 |};
                      2%nat := {| sesID := {| id := 3 |}; sesCtx := Some c2 |} ]} |}) /\
  session_of a0 = None /\ session_of a1 = None /\
  {| id := 2 |} <> {| id := 1 |} /\ {| id := 2 |} <> {| id := 3 |}.
Proof.
  cbv zeta. split; [vm_compute; reflexivity|].
  split; [reflexivity|]. split; [reflexivity|]. split; discriminate.
Qed.

(** C7, as the code has it.  [NewSession] and [GetOrCreateSession] are
    total on contexts that are not nil.  Whatever calls a client makes, on
    whatever contexts it holds, and however the threads are interleaved, no
    step panics; in every configuration so reached both functions return
    normally, with a context, on every context the client can name, and
    every call in flight returns after at most five more steps of its own.
    [NewSession] returns normally on every non-nil context in every state,
    and [GetOrCreateSession] does exactly when the pointer its guard finds
    is allocated. *)
Theorem registry_never_fails (acts : list Action) :
  exists cfg st,
    run acts start initial = Ok (cfg, st) /\
    (forall e c,
       eval (pool cfg) e = Some c ->
       (exists c' st', Iface.NewSession (Some c) st = Ok (Some c', st')) /\
       (exists x c' st',
          Iface.GetOrCreateSession (Some c) st = Ok ((x, Some c'), st'))) /\
    (forall i t,
       pool cfg !! i = Some t ->
       exists cfg' st' t' r,
         run (replicate 5 (Run i)) cfg st = Ok (cfg', st') /\
         pool cfg' !! i = Some t' /\ pc t' = pcDone r) /\
    (forall c s, exists c' s', Iface.NewSession (Some c) s = Ok (Some c', s')) /\
    (forall c s,
       (exists r s', Iface.GetOrCreateSession (Some c) s = Ok (r, s')) <->
       (forall l, session_of c = Some l -> is_Some (heap s !! l))).
Proof.
  destruct (reachable_Inv acts) as (cfg & st & Hrun & HI).
  exists cfg, st. split; [assumption|]. split; [|split; [|split]].
  - intros e c He.
    destruct (registry_total st c) as [(c1 & s1 & H1) (x & c2 & s2 & H2)].
    { now destruct (eval_wf _ _ _ _ HI He). }
    rewrite Iface_NewSession_Some, Iface_GetOrCreateSession_Some, H1, H2.
    split; [eexists _, _ | eexists _, _, _]; reflexivity.
  - intros i t Ht.
    destruct (run_to_return 5 st cfg i t HI Ht) as (cfg' & st' & t' & r & H1 & H2 & H3 & _).
    + destruct (pc t); simpl; lia.
    + eauto 8.
  - intros c s. rewrite Iface_NewSession_Some.
    destruct (session_of c) as [l|] eqn:Hs.
    + rewrite (NewSession_bound _ _ _ Hs). eexists _, _. reflexivity.
    + rewrite (NewSession_unbound _ _ Hs), createSession_eq. cbv zeta.
      eexists _, _. reflexivity.
  - intros c s. rewrite Iface_GetOrCreateSession_Some.
    destruct (session_of c) as [l|] eqn:Hs.
    + rewrite (GetOrCreateSession_bound _ _ _ Hs). split.
      * intros (r & s' & H) l' [= <-].
        destruct (heap s !! l); [eauto | discriminate].
      * intros H. destruct (H l eq_refl) as [v ->]. eexists _, _. reflexivity.
    + rewrite (GetOrCreateSession_unbound _ _ Hs), createSession_eq. cbv zeta.
      split; [intros _ l [=] | intros _; eexists _, _; reflexivity].
Qed.

Lemma registry_never_fails_witness :
  exists cfg st,
    run race start initial = Ok (cfg, st) /\
    (forall e c,
       eval (pool cfg) e = Some c ->
       (exists c' st', Iface.NewSession (Some c) st = Ok (Some c', st')) /\
       (exists x c' st',
          Iface.GetOrCreateSession (Some c) st = Ok ((x, Some c'), st'))) /\
    (forall i t,
       pool cfg !! i = Some t ->
       exists cfg' st' t' r,
         run (replicate 5 (Run i)) cfg st = Ok (cfg', st') /\
         pool cfg' !! i = Some t' /\ pc t' = pcDone r) /\
    (forall c s, exists c' s', Iface.NewSession (Some c) s = Ok (Some c', s')) /\
    (forall c s,
       (exists r s', Iface.GetOrCreateSession (Some c) s = Ok (r, s')) <->
       (forall l, session_of c = Some l -> is_Some (heap s !! l))).
Proof. exact (registry_never_fails race). Defined.

(** C7 as stated fails on the nil context: both functions call [ctx.Value]
    first, lines 73 and 89, and on a nil interface that call panics, in
    every state. *)
Lemma registry_panics_on_nil_context :
  Iface.NewSession None initial
    = Panic "invalid memory address or nil pointer dereference" /\
  Iface.GetOrCreateSession None initial
    = Panic "invalid memory address or nil pointer dereference".
Proof. split; reflexivity. Qed.

(** * Further properties of the code *)

(** ** [String] *)

Lemma String_length_append (a b : string) :
  String.length (String.append a b) = (String.length a + String.length b)%nat.
Proof. induction a as [|c a IH]; simpl; [reflexivity | now rewrite IH]. Qed.

Lemma fmtInteger_loop_length (fuel : nat) : forall u buf k,
  (u < 10 * 10 ^ N.of_nat k)%N ->
  (S (String.length buf) <= String.length (fmtInteger_loop fuel u buf)
     <= S k + String.length buf)%nat.
Proof.
  induction fuel as [|fuel IH]; intros u buf k Hu.
  - simpl. lia.
  - cbn [fmtInteger_loop]. destruct (N.leb_spec 10 u) as [Hge|Hlt].
    + destruct k as [|k]; [simpl in Hu; lia|].
      assert (u / 10 < 10 * 10 ^ N.of_nat k)%N as Hnext.
      { rewrite Nat2N.inj_succ, N.pow_succ_r' in Hu.
        apply N.Div0.div_lt_upper_bound. lia. }
      specialize (IH (u / 10)%N
                    (String (digit_byte (u - u / 10 * 10)) buf) k Hnext).
      simpl in IH. lia.
    + simpl. lia.
Qed.

(** X1.  The text [String] returns for a 64-bit id has between 9 and 28
    characters: the 8 of session- and 1 to 20 digits. *)
Theorem String_length_bounds (s : SessionID) :
  (id s < uint64_modulus)%N ->
  (9 <= String.length (String_ s) <= 28)%nat.
Proof.
  intros Hid. unfold String_, fmt_d. rewrite String_length_append.
  assert (id s < 10 * 10 ^ N.of_nat 19)%N as Hu.
  { eapply N.lt_trans; [exact Hid|]. vm_compute. reflexivity. }
  pose proof (fmtInteger_loop_length (N.to_nat (N.log2 (id s))) (id s)
                EmptyString 19 Hu) as Hlen.
  simpl in *. lia.
Qed.

Lemma String_length_bounds_witness :
  (id {| id := 18446744073709551615 |} < uint64_modulus)%N /\
  (9 <= String.length (String_ {| id := 18446744073709551615 |}) <= 28)%nat.
Proof.
  split; [vm_compute; reflexivity|].
  apply (String_length_bounds {| id := 18446744073709551615 |}).
  vm_compute. reflexivity.
Defined.

(** X2.  [String] and [IsZero] agree on the invalid id: the text is
    session-0 exactly for the id on which [IsZero] holds. *)
Theorem String_is_session_0_iff_IsZero (s : SessionID) :
  String_ s = "session-0"%string <-> IsZero s = true.
Proof.
  split.
  - intros E. change "session-0"%string with (String_ {| id := 0 |}) in E.
    unfold String_ in E. apply append_inj_l in E.
    destruct (fmt_d_decimal (id s)) as (_ & _ & Hv).
    destruct (fmt_d_decimal (id {| id := 0 |})) as (_ & _ & Hv0).
    apply IsZero_spec. rewrite <- Hv, E, Hv0. reflexivity.
  - intros H. apply IsZero_spec in H. destruct s as [n]. simpl in H. now subst.
Qed.

(** ** What the returned context is to the context passed in *)

Lemma ancestor_or_self_refl (c : Context) : ancestor_or_self c c = true.
Proof. destruct c; cbn [ancestor_or_self]; destruct (decide _); congruence. Qed.

Lemma ancestor_or_self_parent (a c : Context) :
  ancestor_or_self a c = true ->
  (forall n, ancestor_or_self a (WithCancel c n) = true) /\
  (forall k v, ancestor_or_self a (WithValue c k v) = true).
Proof.
  intros H. split; intros; cbn [ancestor_or_self]; destruct (decide _); auto.
Qed.

Lemma ancestor_or_self_depth (a c : Context) :
  ancestor_or_self a c = true -> (depth a <= depth c)%nat.
Proof.
  induction c as [| |p IH n|p IH k v]; cbn [ancestor_or_self];
    destruct (decide _) as [->|Hne]; try (intros _; lia); try discriminate;
    intros Hanc; apply IH in Hanc; simpl; lia.
Qed.

Lemma bindingScope_ancestor (ctx scope : Context) :
  bindingScope ctx = Some scope -> ancestor_or_self scope ctx = true.
Proof.
  induction ctx as [| |p IH n|p IH k v]; cbn [bindingScope]; try discriminate.
  - intros H. now apply ancestor_or_self_parent, IH.
  - destruct (decide (sessionContextKey = k)) as [<-|Hne].
    + intros [= <-]. apply ancestor_or_self_refl.
    + intros H. now apply ancestor_or_self_parent, IH.
Qed.

(** X3.  Creating a session hides nothing of the caller's context: the
    context returned for a context without binding is a new child of it, one
    derivation deeper, and every value stored under a foreign key is found
    through the child as through the parent. *)
Theorem session_creation_keeps_foreign_values (st : State) (ctx : Context) :
  session_of ctx = None ->
  exists i c' st',
    NewSession ctx st = Ok (c', st') /\
    GetOrCreateSession ctx st = Ok ((i, Some c'), st') /\
    (forall k, Value c' (userKey k) = Value ctx (userKey k)) /\
    ancestor_or_self ctx c' = true /\
    ancestor_or_self c' ctx = false /\
    depth c' = S (depth ctx).
Proof.
  intros Hs.
  rewrite (NewSession_unbound _ _ Hs), (GetOrCreateSession_unbound _ _ Hs).
  rewrite createSession_eq. cbv zeta.
  eexists _, _, _. split; [reflexivity|]. split; [reflexivity|].
  split; [reflexivity|]. split; [|split; [|reflexivity]].
  - apply ancestor_or_self_parent, ancestor_or_self_refl.
  - apply not_true_is_false. intros H.
    apply ancestor_or_self_depth in H. simpl in H. lia.
Qed.

Lemma session_creation_keeps_foreign_values_witness :
  exists i c' st',
    NewSession (WithValue Background (userKey 3) (userVal 4)) initial = Ok (c', st') /\
    GetOrCreateSession (WithValue Background (userKey 3) (userVal 4)) initial
      = Ok ((i, Some c'), st') /\
    (forall k, Value c' (userKey k)
               = Value (WithValue Background (userKey 3) (userVal 4)) (userKey k)) /\
    ancestor_or_self (WithValue Background (userKey 3) (userVal 4)) c' = true /\
    ancestor_or_self c' (WithValue Background (userKey 3) (userVal 4)) = false /\
    depth c' = S (depth (WithValue Background (userKey 3) (userVal 4))).
Proof.
  apply (session_creation_keeps_foreign_values initial
           (WithValue Background (userKey 3) (userVal 4))).
  reflexivity.
Defined.

(** X4.  For a context with a binding, the context [GetOrCreateSession]
    returns is the context passed in or one of its ancestors, never a
    descendant: what the caller derived below the binding scope is not part
    of it.  A value the caller attaches under a foreign key that the binding
    scope does not hold is found through the caller's context and not
    through the returned one, and the returned context is strictly
    shallower. *)
Theorem found_session_scope_is_an_ancestor (st : State) (ctx : Context) (l : loc) :
  ctx_wf (heap st) ctx ->
  session_of ctx = Some l ->
  exists i scope,
    GetOrCreateSession ctx st = Ok ((i, Some scope), st) /\
    ancestor_or_self scope ctx = true /\
    (depth scope <= depth ctx)%nat /\
    forall k v,
      Value scope (userKey k) = None ->
      let ctx' := WithValue ctx (userKey k) v in
      GetOrCreateSession ctx' st = Ok ((i, Some scope), st) /\
      Value ctx' (userKey k) = Some v /\
      Value scope (userKey k) <> Value ctx' (userKey k) /\
      (depth scope < depth ctx')%nat.
Proof.
  intros Hwf Hs.
  destruct (session_of_binding _ _ _ Hwf Hs) as (i & parent & Hb & Hh).
  cbv zeta in *. eexists i, _.
  rewrite (GetOrCreateSession_bound _ _ _ Hs), Hh.
  split; [reflexivity|].
  pose proof (bindingScope_ancestor _ _ Hb) as Hanc.
  pose proof (ancestor_or_self_depth _ _ Hanc) as Hdep.
  split; [assumption|]. split; [assumption|].
  intros k v Hnone.
  assert (session_of (WithValue ctx (userKey k) v) = Some l) as Hs' by exact Hs.
  rewrite (GetOrCreateSession_bound _ _ _ Hs'), Hh.
  split; [reflexivity|].
  assert (Value (WithValue ctx (userKey k) v) (userKey k) = Some v) as Hv.
  { simpl. now rewrite decide_True. }
  split; [assumption|]. split; [rewrite Hv, Hnone; discriminate|].
  cbn [depth] in *. lia.
Qed.

Lemma found_session_scope_is_an_ancestor_witness :
  exists i scope,
    GetOrCreateSession S2 st1 = Ok ((i, Some scope), st1) /\
    ancestor_or_self scope S2 = true /\
    (depth scope <= depth S2)%nat /\
    forall k v,
      Value scope (userKey k) = None ->
      let ctx' := WithValue S2 (userKey k) v in
      GetOrCreateSession ctx' st1 = Ok ((i, Some scope), st1) /\
      Value ctx' (userKey k) = Some v /\
      Value scope (userKey k) <> Value ctx' (userKey k) /\
      (depth scope < depth ctx')%nat.
Proof.
  apply (found_session_scope_is_an_ancestor st1 S2 0%nat).
  - simpl. split; [exact I|]. exists {| id := 1 |}. reflexivity.
  - reflexivity.
Defined.

(** X5.  [NewSession] and [GetOrCreateSession] agree: called on the same
    context in the same state they leave the same state, and the session
    [GetOrCreateSession] reports is the one bound to the context
    [NewSession] returns, which [GetOrCreateSession] then finds again. *)
Theorem NewSession_GetOrCreateSession_agree (st : State) (ctx : Context) :
  ctx_wf (heap st) ctx ->
  exists c i scope st',
    NewSession ctx st = Ok (c, st') /\
    GetOrCreateSession ctx st = Ok ((i, Some scope), st') /\
    bindingScope c = Some scope /\
    bound_id (heap st') c = Some i /\
    GetOrCreateSession c st' = Ok ((i, Some scope), st').
Proof.
  intros Hwf. destruct (session_of ctx) as [l|] eqn:Hs.
  - destruct (session_of_binding _ _ _ Hwf Hs) as (i & parent & Hb & Hh).
    cbv zeta in *.
    rewrite (NewSession_bound _ _ _ Hs), (GetOrCreateSession_bound _ _ _ Hs), Hh.
    eexists _, _, _, _. split; [reflexivity|]. split; [reflexivity|].
    split; [assumption|]. unfold bound_id. rewrite Hs, Hh.
    split; [reflexivity|].
    rewrite (GetOrCreateSession_bound _ _ _ Hs), Hh. reflexivity.
  - rewrite (NewSession_unbound _ _ Hs), (GetOrCreateSession_unbound _ _ Hs).
    rewrite createSession_eq. cbv zeta.
    eexists _, _, _, _. split; [reflexivity|]. split; [reflexivity|].
    split; [reflexivity|]. simpl. unfold bound_id.
    erewrite GetOrCreateSession_bound by apply session_of_WithValue_self.
    rewrite session_of_WithValue_self. simpl. rewrite lookup_insert_eq. auto.
Qed.

Lemma NewSession_GetOrCreateSession_agree_witness :
  exists c i scope st',
    NewSession S2 st1 = Ok (c, st') /\
    GetOrCreateSession S2 st1 = Ok ((i, Some scope), st') /\
    bindingScope c = Some scope /\
    bound_id (heap st') c = Some i /\
    GetOrCreateSession c st' = Ok ((i, Some scope), st').
Proof.
  apply (NewSession_GetOrCreateSession_agree st1 S2).
  simpl. split; [exact I|]. exists {| id := 1 |}. reflexivity.
Defined.

(** ** The running system: further properties *)

(** X6.  No id comes from anywhere but the allocator: in every run, every
    id a call of [GetOrCreateSession] has returned, every id bound to a
    context the client holds and every id stored in a binding is the id of
    an allocation made at line 97, and there are no more allocations than
    actions. *)
Theorem returned_ids_were_allocated (acts : list Action) (cfg : Config) (st : State) :
  run acts start initial = Ok (cfg, st) ->
  (forall i t x c,
     pool cfg !! i = Some t -> pc t = pcDone (retGetOrCreateSession x c) ->
     exists j, (j, x) ∈ trace cfg) /\
  (forall e c x,
     eval (pool cfg) e = Some c -> bound_id (heap st) c = Some x ->
     exists j, (j, x) ∈ trace cfg) /\
  (forall l v, heap st !! l = Some v -> exists j, (j, sesID v) ∈ trace cfg) /\
  (length (trace cfg) <= length acts)%nat.
Proof.
  intros Hrun.
  destruct (run_Inv acts _ _ Inv_start) as (cfg' & st' & Hrun' & HI & _ & Hlen & _).
  rewrite Hrun in Hrun'. injection Hrun' as <- <-.
  assert (forall l v, heap st !! l = Some v -> exists j, (j, sesID v) ∈ trace cfg)
    as Hcells.
  { intros l v Hl. destruct (cell_traced _ _ _ _ HI Hl) as (j & t & _ & _ & Hin). eauto. }
  split; [|split; [|split; [assumption | simpl in Hlen; lia]]].
  - intros i t x c Ht Hpc.
    pose proof (inv_threads _ _ HI _ _ Ht) as (Hwf & _ & Hinv). rewrite Hpc in Hinv.
    destruct (session_of (arg t)) as [s|].
    + destruct Hinv as (_ & Hfn). destruct (fn t); [discriminate|].
      destruct Hfn as (x' & scope & Hcell & [= -> ->]). apply (Hcells _ _ Hcell).
    + destruct Hinv as (x' & q & Hin & _ & Hr). destruct (fn t); [discriminate|].
      injection Hr as -> _. eauto.
  - intros e c x He Hb. unfold bound_id in Hb.
    destruct (session_of c) as [l|]; [|discriminate].
    destruct (heap st !! l) as [v|] eqn:Hl; [|discriminate].
    injection Hb as <-. eauto.
Qed.

Lemma returned_ids_were_allocated_witness :
  run race start initial = Ok (race_end.1, race_end.2) /\
  (length (trace race_end.1) <= length race)%nat.
Proof.
  split; [vm_compute; reflexivity|].
  apply (returned_ids_were_allocated race race_end.1 race_end.2).
  vm_compute. reflexivity.
Defined.

(** X7.  A SessionID identifies its session: as long as the counter has
    not wrapped, two contexts a client holds that are bound to the same id
    have the same binding scope, and [GetOrCreateSession] answers the same
    on both. *)
Theorem session_id_identifies_session
    (acts : list Action) (cfg : Config) (st : State) (e e' : CtxExpr)
    (c c' : Context) (x : SessionID) :
  (N.of_nat (length acts) < uint64_modulus)%N ->
  run acts start initial = Ok (cfg, st) ->
  eval (pool cfg) e = Some c ->
  eval (pool cfg) e' = Some c' ->
  bound_id (heap st) c = Some x ->
  bound_id (heap st) c' = Some x ->
  exists scope,
    bindingScope c = Some scope /\ bindingScope c' = Some scope /\
    GetOrCreateSession c st = Ok ((x, Some scope), st) /\
    GetOrCreateSession c' st = Ok ((x, Some scope), st).
Proof.
  intros Hbound Hrun He He' Hb Hb'.
  destruct (reachable_ids_in_order _ _ _ Hbound Hrun) as [HI Hids].
  destruct (eval_wf _ _ _ _ HI He) as [Hwf _].
  destruct (eval_wf _ _ _ _ HI He') as [Hwf' _].
  unfold bound_id in Hb, Hb'.
  destruct (session_of c) as [l|] eqn:Hs; [|discriminate].
  destruct (session_of c') as [l'|] eqn:Hs'; [|discriminate].
  destruct (session_of_binding _ _ _ Hwf Hs) as (i & parent & Hscope & Hcell).
  destruct (session_of_binding _ _ _ Hwf' Hs') as (i' & parent' & Hscope' & Hcell').
  cbv zeta in *. rewrite Hcell in Hb. rewrite Hcell' in Hb'.
  simpl in Hb, Hb'. injection Hb as ->. injection Hb' as ->.
  assert (l = l') as <-.
  { eapply (cells_injective st cfg); eauto. }
  rewrite Hcell in Hcell'. injection Hcell' as Hp.
  exists (WithValue parent sessionContextKey (ptr_sessionContextValue l)).
  split; [assumption|]. split; [now rewrite Hscope', <- Hp|].
  rewrite (GetOrCreateSession_bound _ _ _ Hs), (GetOrCreateSession_bound _ _ _ Hs').
  rewrite Hcell. auto.
Qed.

Lemma session_id_identifies_session_witness :
  (N.of_nat (length (race ++ later)) < uint64_modulus)%N /\
  run (race ++ later) start initial = Ok (later_end.1, later_end.2) /\
  exists scope,
    bindingScope (WithCancel (WithValue (WithCancel Background 1) sessionContextKey
                                (ptr_sessionContextValue 0)) 7) = Some scope /\
    bindingScope (WithValue (WithCancel Background 1) sessionContextKey
                    (ptr_sessionContextValue 0)) = Some scope.
Proof.
  split; [vm_compute; reflexivity|]. split; [vm_compute; reflexivity|].
  destruct (session_id_identifies_session (race ++ later) later_end.1 later_end.2
              (eWithCancel (eResult 0) 7) (eResult 3)
              (WithCancel (WithValue (WithCancel Background 1) sessionContextKey
                             (ptr_sessionContextValue 0)) 7)
              (WithValue (WithCancel Background 1) sessionContextKey
                 (ptr_sessionContextValue 0))
              {| id := 2 |})
    as (scope & H1 & H2 & _); try (vm_compute; reflexivity).
  exists scope. split; assumption.
Defined.

(** X8.  Sessions never nest: in every run, whatever context the client
    can get hold of carries at most one session binding on its whole chain,
    carries one exactly when the guard finds one, and that binding refers
    back to the context that holds it. *)
Theorem sessions_never_nest
    (acts : list Action) (cfg : Config) (st : State) (e : CtxExpr) (c : Context) :
  run acts start initial = Ok (cfg, st) ->
  eval (pool cfg) e = Some c ->
  (bindings c <= 1)%nat /\
  (bindings c = 1%nat <-> is_Some (session_of c)) /\
  (forall scope, bindingScope c = Some scope ->
     bindingScope scope = Some scope /\
     exists l i, session_of c = Some l /\
       heap st !! l = Some {| sesID := i; sesCtx := Some scope |}).
Proof.
  intros Hrun He.
  destruct (reachable_contexts_wf _ _ _ _ _ Hrun He) as [Hwf Hsb].
  unfold single_binding in Hsb.
  destruct (session_of c) as [l|] eqn:Hs.
  - split; [lia|]. split; [split; eauto|].
    intros scope Hscope.
    destruct (session_of_binding _ _ _ Hwf Hs) as (i & parent & Hb & Hcell).
    cbv zeta in *. rewrite Hscope in Hb. injection Hb as ->.
    split; [reflexivity | eauto].
  - split; [lia|]. split; [split; [lia | intros [? [=]]]|].
    intros scope Hscope. exfalso.
    assert (forall c0, bindings c0 = 0%nat -> bindingScope c0 = None) as Hnone.
    { induction c0 as [| |p IH n|p IH k v]; simpl; auto.
      destruct (decide (sessionContextKey = k)); [discriminate | auto]. }
    rewrite (Hnone _ Hsb) in Hscope. discriminate.
Qed.

Lemma sessions_never_nest_witness :
  run (race ++ later) start initial = Ok (later_end.1, later_end.2) /\
  eval (pool later_end.1) (eWithValue (eResult 3) 5 6)
    = Some (WithValue (WithValue (WithCancel Background 1) sessionContextKey
                         (ptr_sessionContextValue 0)) (userKey 5) (userVal 6)) /\
  (bindings (WithValue (WithValue (WithCancel Background 1) sessionContextKey
                          (ptr_sessionContextValue 0)) (userKey 5) (userVal 6))
   <= 1)%nat.
Proof.
  split; [vm_compute; reflexivity|]. split; [vm_compute; reflexivity|].
  apply (sessions_never_nest (race ++ later) later_end.1 later_end.2
           (eWithValue (eResult 3) 5 6)); vm_compute; reflexivity.
Defined.

(** X9.  A call on a context that carries a binding only reads: in every
    run, whatever step such a call takes next, it leaves the counter and the
    heap as they are, allocates nothing, and brings the call nearer to its
    return. *)
Theorem lookups_do_not_write
    (acts : list Action) (cfg : Config) (st : State) (i : nat) (t : Thread) :
  run acts start initial = Ok (cfg, st) ->
  pool cfg !! i = Some t ->
  is_Some (session_of (arg t)) ->
  exists p,
    step t st = Ok (p, st) /\
    allocation (pc t) p = None /\
    (remaining p <= pred (remaining (pc t)))%nat.
Proof.
  intros Hrun Ht [s Hs].
  destruct (reachable_Inv acts) as (cfg' & st' & Hrun' & HI).
  rewrite Hrun in Hrun'. injection Hrun' as <- <-.
  pose proof (inv_threads _ _ HI _ _ Ht) as (Hwf & _ & Hpc).
  destruct (session_of_binding _ _ _ Hwf Hs) as (x & parent & _ & Hcell).
  destruct t as [f a q]. simpl in *. unfold step; simpl.
  destruct q as [|s'|s' x'| |x'|x' q|x' q c|r].
  - change (assert_sessionContextValue (Value a sessionContextKey)) with (session_of a).
    rewrite Hs. destruct f; eexists; (split; [reflexivity|]); simpl; split; auto; lia.
  - destruct Hpc as (_ & Hs' & _). rewrite Hs in Hs'. injection Hs' as <-.
    unfold bind, load. rewrite Hcell. simpl.
    eexists; (split; [reflexivity|]); simpl; split; auto.
  - destruct Hpc as (_ & Hs' & _). rewrite Hs in Hs'. injection Hs' as <-.
    unfold bind, load. rewrite Hcell. simpl.
    eexists; (split; [reflexivity|]); simpl; split; auto.
  - destruct Hpc as (Hnone & _). congruence.
  - destruct Hpc as (Hnone & _). congruence.
  - destruct Hpc as (Hnone & _). congruence.
  - destruct Hpc as (Hnone & _). congruence.
  - eexists; (split; [reflexivity|]); simpl; split; auto.
Qed.

Lemma lookups_do_not_write_witness :
  run (race ++ [Call fnGetOrCreateSession (eWithCancel (eResult 0) 7); Run 3])
      start initial
    = Ok ({| pool := pool race_end.1 ++
                [ {| fn := fnGetOrCreateSession;
                     arg := WithCancel (WithValue (WithCancel Background 1)
                                          sessionContextKey
                                          (ptr_sessionContextValue 0)) 7;
                     pc := pcLoadID 0 |} ];
             trace := trace race_end.1 |}, race_end.2) /\
  exists p,
    step {| fn := fnGetOrCreateSession;
            arg := WithCancel (WithValue (WithCancel Background 1)
                                 sessionContextKey (ptr_sessionContextValue 0)) 7;
            pc := pcLoadID 0 |} race_end.2 = Ok (p, race_end.2) /\
    allocation (pcLoadID 0) p = None /\
    (remaining p <= pred (remaining (pcLoadID 0)))%nat.
Proof.
  split; [vm_compute; reflexivity|].
  apply (lookups_do_not_write
           (race ++ [Call fnGetOrCreateSession (eWithCancel (eResult 0) 7); Run 3])
           {| pool := pool race_end.1 ++
                [ {| fn := fnGetOrCreateSession;
                     arg := WithCancel (WithValue (WithCancel Background 1)
                                          sessionContextKey
                                          (ptr_sessionContextValue 0)) 7;
                     pc := pcLoadID 0 |} ];
              trace := trace race_end.1 |}
           race_end.2 3).
  - vm_compute. reflexivity.
  - vm_compute. reflexivity.
  - eexists. reflexivity.
Defined.

Lemma do_action_returned_stable a cfg st cfg' st' i t c :
  do_action a cfg st = Ok (cfg', st') ->
  pool cfg !! i = Some t -> returned_ctx t = Some c ->
  exists t', pool cfg' !! i = Some t' /\ returned_ctx t' = Some c.
Proof.
  intros Hdo Ht Hret. destruct a as [f e|j]; simpl in Hdo.
  - destruct (eval (pool cfg) e); injection Hdo as <- <-; [|eauto].
    exists t. split; [now apply lookup_app_l_Some | assumption].
  - destruct (pool cfg !! j) as [tj|] eqn:Hj; [|injection Hdo as <- <-; eauto].
    unfold bind in Hdo. destruct (step tj st) as [[p st1]|m] eqn:Hstep; [|discriminate].
    injection Hdo as <- <-. unfold after_step. simpl.
    destruct (decide (j = i)) as [->|Hne].
    + rewrite Ht in Hj. injection Hj as <-.
      rewrite list_lookup_insert_eq by (eapply lookup_lt_Some; eauto).
      eexists. split; [reflexivity|].
      unfold returned_ctx in *. simpl.
      destruct (pc t) as [| | | | | | |r] eqn:Hpc; try discriminate.
      unfold step in Hstep. rewrite Hpc in Hstep. injection Hstep as <- _.
      assumption.
    + rewrite list_lookup_insert_ne by assumption. eauto.
Qed.

Lemma do_action_eval_stable a cfg st cfg' st' e : forall c,
  do_action a cfg st = Ok (cfg', st') ->
  eval (pool cfg) e = Some c -> eval (pool cfg') e = Some c.
Proof.
  induction e as [| |i|e IH n|e IH k v]; simpl; intros c Hdo; auto.
  - destruct (pool cfg !! i) as [t|] eqn:Ht; simpl; [|discriminate].
    intros Hret.
    destruct (do_action_returned_stable _ _ _ _ _ _ _ _ Hdo Ht Hret) as (t' & -> & Hr).
    exact Hr.
  - destruct (eval (pool cfg) e) as [c0|]; simpl; [|discriminate].
    intros [= <-]. now rewrite (IH c0 Hdo eq_refl).
  - destruct (eval (pool cfg) e) as [c0|]; simpl; [|discriminate].
    intros [= <-]. now rewrite (IH c0 Hdo eq_refl).
Qed.

Lemma run_eval_stable acts : forall cfg st cfg' st' e c,
  run acts cfg st = Ok (cfg', st') ->
  eval (pool cfg) e = Some c -> eval (pool cfg') e = Some c.
Proof.
  induction acts as [|a acts IH]; intros cfg st cfg' st' e c; simpl.
  - now intros [= <- <-].
  - unfold bind. destruct (do_action a cfg st) as [[cfg1 st1]|m] eqn:Hdo; [|discriminate].
    intros Hrun He. eapply IH; [exact Hrun|].
    eapply do_action_eval_stable; eauto.
Qed.

(** X10.  A session, once made, stays: whatever the client and the other
    threads do afterwards, a context the client holds keeps its binding.  The
    client still holds the context, [GetOrCreateSession] returns for it the
    same id and the same scope as before, and [NewSession] returns it
    unchanged; neither allocates. *)
Theorem sessions_are_stable
    (acts acts' : list Action) (cfg cfg' : Config) (st st' : State)
    (e : CtxExpr) (c : Context) :
  run acts start initial = Ok (cfg, st) ->
  eval (pool cfg) e = Some c ->
  is_Some (session_of c) ->
  run acts' cfg st = Ok (cfg', st') ->
  eval (pool cfg') e = Some c /\
  exists x scope,
    GetOrCreateSession c st = Ok ((x, Some scope), st) /\
    GetOrCreateSession c st' = Ok ((x, Some scope), st') /\
    NewSession c st' = Ok (c, st').
Proof.
  intros Hrun He [l Hs] Hrun'.
  destruct (reachable_Inv acts) as (cfg0 & st0 & Hrun0 & HI).
  rewrite Hrun in Hrun0. injection Hrun0 as <- <-.
  destruct (eval_wf _ _ _ _ HI He) as [Hwf _].
  destruct (session_of_binding _ _ _ Hwf Hs) as (x & parent & _ & Hcell).
  pose proof (run_keeps_published _ _ _ _ _ HI Hrun') as Hk.
  split; [eapply run_eval_stable; eauto|].
  eexists x, _.
  rewrite !(GetOrCreateSession_bound _ _ _ Hs), (NewSession_bound _ _ _ Hs).
  rewrite Hcell, (Hk _ _ Hcell) by discriminate. auto.
Qed.

Lemma sessions_are_stable_witness :
  run race start initial = Ok (race_end.1, race_end.2) /\
  run later race_end.1 race_end.2 = Ok (later_end.1, later_end.2) /\
  eval (pool later_end.1) (eResult 0)
    = Some (WithValue (WithCancel Background 1) sessionContextKey
              (ptr_sessionContextValue 0)).
Proof.
  split; [vm_compute; reflexivity|]. split; [vm_compute; reflexivity|].
  apply (sessions_are_stable race later race_end.1 later_end.1 race_end.2 later_end.2
           (eResult 0)).
  - vm_compute. reflexivity.
  - vm_compute. reflexivity.
  - eexists. reflexivity.
  - vm_compute. reflexivity.
Defined.
